(** * Watch animation: the per-frame geometry of [Main.py]

    The script draws an analog watch face and, for every frame of the
    animation, recomputes the three hand positions and the state of a
    fading text from the frame index.  This development embeds

    - [polar_to_cartesian]               (Main.py, lines 15-23),
    - the configuration constants        (Main.py, lines 26-53),
    - the static hour indices, numerals and logo (lines 104-174),
    - [init_animation] and [update_frame] (Main.py, lines 216-273),

    and proves the properties the specification states about them.

    Number model.  Frame indices, [FPS] and the start time are Python
    [int]s and are modelled by [Z].  Every other quantity is a Python
    [float], a binary64 number, modelled by the rational number it
    denotes.

    - Where the frame index enters (lines 228-229: [frame / FPS] and the
      sum with the start time) binary64 is modelled as it is: the
      quotient and the sum are rounded to the nearest binary64 number
      ([round64]), the quotient raises [OverflowError] beyond the
      binary64 range, and [%] is Python's, whose result for a negative
      total is a rounded sum.  The effect of this rounding grows with
      the frame index, and for large indices it decides which second is
      shown.
    - The arithmetic on the bounded values that follow (the angles from
      a reading below 12 hours, the fade quotient in [0, 1]) is kept
      exact: there binary64 differs from the exact value by a relative
      error of 2^-53 per operation and never by more.
    - The trigonometric converter lives in [R]. *)

From Stdlib Require Import ZArith QArith Qround Qabs Qpower Qreduction Qreals Reals.
From Stdlib Require Import List String Psatz.
Import ListNotations.

Local Open Scope Z_scope.
Local Open Scope Q_scope.

(* ================================================================== *)
(** ** Python evaluation: results and exceptions *)

Inductive exn : Type :=
| ZeroDivisionError
| OverflowError.

(** A call returns normally ([Ok]) or raises ([Raise]).  [NonFinite]
    stands for a call that returns normally but with [inf] or [nan]
    among the floats it computed; the model does not follow such values
    any further. *)
Inductive result (A : Type) : Type :=
| Ok (a : A)
| Raise (e : exn)
| NonFinite.

Arguments Ok {A} a.
Arguments Raise {A} e.
Arguments NonFinite {A}.

Definition bind {A B : Type} (r : result A) (k : A -> result B) : result B :=
  match r with
  | Ok a => k a
  | Raise e => Raise e
  | NonFinite => NonFinite
  end.

Notation "x <- r ;; k" := (bind r (fun x => k))
  (at level 61, r at next level, right associativity).

(* ================================================================== *)
(** ** binary64 *)

Definition pow2 (z : Z) : Q := 2 ^ z.

(** The binary exponent of a positive rational: [2^e <= q < 2^(e+1)]. *)
Definition Qlog2 (q : Q) : Z :=
  let e0 := (Z.log2 (Qnum q) - Z.log2 (Zpos (Qden q)))%Z in
  if Qle_bool (pow2 e0) q then e0 else (e0 - 1)%Z.

(** The exponent of the unit in the last place: 53 significant bits,
    and nothing finer than the subnormal grid [2^-1074]. *)
Definition ulp_exponent (q : Q) : Z :=
  if (Qnum q =? 0)%Z then (-1074)%Z else Z.max (Qlog2 (Qabs q) - 52) (-1074).

(** To the nearest whole number, ties to the even one. *)
Definition round_half_even (x : Q) : Z :=
  let n := Qfloor x in
  match Qcompare (x - inject_Z n) (1 # 2) with
  | Lt => n
  | Gt => (n + 1)%Z
  | Eq => if Z.even n then n else (n + 1)%Z
  end.

(** The binary64 number nearest to [q] (for [q] inside the range). *)
Definition round64 (q : Q) : Q :=
  let q' := Qred q in
  inject_Z (round_half_even (q' / pow2 (ulp_exponent q'))) * pow2 (ulp_exponent q').

(** The least magnitude that no longer rounds to a finite binary64
    number: half an ulp above the largest one, [2^1024 - 2^971]. *)
Definition binary64_limit : Z := (2 ^ 1024 - 2 ^ 970)%Z.

(** [a / b] on two [int]s (line 228): the correctly rounded quotient;
    raises on a zero divisor and when the quotient is too large for a
    float. *)
Definition true_divide (a b : Z) : result Q :=
  if (b =? 0)%Z then Raise ZeroDivisionError
  else if (binary64_limit * Z.abs b <=? Z.abs a)%Z then Raise OverflowError
  else Ok (round64 (inject_Z a / inject_Z b)).

(** The conversion of an [int] that meets a [float] in a sum. *)
Definition int_to_float (z : Z) : result Q :=
  if (binary64_limit <=? Z.abs z)%Z then Raise OverflowError
  else Ok (round64 (inject_Z z)).

(** [x + y] on floats: rounded; beyond the range the sum is [inf]. *)
Definition float_add (x y : Q) : result Q :=
  if Qle_bool (inject_Z binary64_limit) (Qabs (x + y)) then NonFinite
  else Ok (round64 (x + y)).

(** [a / b] on two [int]s in the fade step (line 261).  There the
    quotient lies in [0, 1] whenever the divisor is not zero, so it
    cannot overflow, and it is kept exact. *)
Definition int_truediv (a b : Z) : result Q :=
  if (b =? 0)%Z then Raise ZeroDivisionError
  else Ok (inject_Z a / inject_Z b).

(** [x // m] on floats.  The script applies it to results of [%] only,
    which lie between 0 and 43200; there Python's quotient
    [floor((x - x % m) / m)] is computed without rounding and is the
    whole number of times [m] fits into [x]. *)
Definition float_floordiv (x m : Q) : Q := inject_Z (Qfloor (x / m)).

(** C's [fmod]: the remainder of the division truncated towards zero.
    It is always representable, so it is not rounded. *)
Definition Qtruncate (x : Q) : Z :=
  if Qle_bool 0 x then Qfloor x else Qceiling x.

Definition fmod (x m : Q) : Q := x - m * inject_Z (Qtruncate (x / m)).

(** [x % m] on floats, as Python computes it: [fmod], and when that has
    the other sign than the divisor, the divisor is added to it, in
    binary64. *)
Definition float_mod (x m : Q) : Q :=
  let rest := fmod x m in
  if Qeq_bool rest 0 then 0
  else if xorb (negb (Qle_bool 0 m)) (negb (Qle_bool 0 rest)) then round64 (rest + m)
  else rest.

(* ================================================================== *)
(** ** 1. Configuration and helper functions *)

(** [np.deg2rad]. *)
Definition deg2rad (theta_deg : R) : R := (theta_deg * (PI / 180))%R.

Definition polar_to_cartesian (r theta_deg : R) (center : R * R) : R * R :=
  let theta_rad := deg2rad theta_deg in
  let x := (fst center + r * cos theta_rad)%R in
  let y := (snd center + r * sin theta_rad)%R in
  (x, y).

(** The default value of the [center] argument. *)
Definition default_center : R * R := (0%R, 0%R).

(** The module-level constants that [update_frame] reads. *)
Record Config : Type := {
  R_DIAL : Q;
  HOUR_HAND_LENGTH : Q;
  MINUTE_HAND_LENGTH : Q;
  SECOND_HAND_LENGTH : Q;
  START_HOUR : Z;
  START_MINUTE : Z;
  START_SECOND : Z;
  FPS : Z;
  ANIM_DURATION : Z;
  TOTAL_FRAMES : Z
}.


(** The values written in the script. *)
Definition script_config : Config :=
  {| R_DIAL := 90 # 100;
     HOUR_HAND_LENGTH := 50 # 100;
     MINUTE_HAND_LENGTH := 75 # 100;
     SECOND_HAND_LENGTH := 85 # 100;
     START_HOUR := 12;
     START_MINUTE := 10;
     START_SECOND := 30;
     FPS := 24;
     ANIM_DURATION := 10;
     TOTAL_FRAMES := 24 * 10 |}.

(* ================================================================== *)
(** ** 4. The dynamic artists *)

(** A [Line2D] as far as the animation touches it: its x and y data. *)
Record Line2D : Type := {
  xdata : list R;
  ydata : list R
}.

(** The text artist: its string, its alpha and its position. *)
Record Text : Type := {
  text : string;
  alpha : Q;
  position : Q * Q
}.

(** The four module-level artists that the update functions mutate and
    return. *)
Record Artists : Type := {
  hour_line : Line2D;
  minute_line : Line2D;
  second_line : Line2D;
  birthday_text : Text
}.

Definition set_data (xs ys : list R) : Line2D := {| xdata := xs; ydata := ys |}.

(** The artists as section 4 of the script creates them. *)
Definition created_artists : Artists :=
  {| hour_line := set_data [] [];
     minute_line := set_data [] [];
     second_line := set_data [] [];
     birthday_text := {| text := ""; alpha := 0; position := (0, -1) |} |}.

(* ================================================================== *)
(** ** 5. Animation update functions *)

(** [init_animation]: empties the three lines and the text, keeps the
    text's position. *)
Definition init_animation (a : Artists) : Artists :=
  {| hour_line := set_data [] [];
     minute_line := set_data [] [];
     second_line := set_data [] [];
     birthday_text := {| text := "";
                         alpha := 0;
                         position := position (birthday_text a) |} |}.

(** Part A of [update_frame] (lines 228-235): the clock reading
    [(current_h, current_m, current_s)]. *)
Definition start_seconds (cfg : Config) : Z :=
  (START_HOUR cfg * 3600 + START_MINUTE cfg * 60 + START_SECOND cfg)%Z.

(** Line 229: the [int] start time plus the [float] elapsed time. *)
Definition total_seconds_of (cfg : Config) (elapsed_seconds : Q) : result Q :=
  start <- int_to_float (start_seconds cfg) ;;
  float_add start elapsed_seconds.

(** Lines 228-229 together: [total_seconds] of a frame. *)
Definition float_total (cfg : Config) (frame : Z) : result Q :=
  elapsed_seconds <- true_divide frame (FPS cfg) ;;
  total_seconds_of cfg elapsed_seconds.

Definition break_total (total_seconds : Q) : Q * Q * Q :=
  let current_h := float_floordiv (float_mod total_seconds 43200) 3600 in
  let rem := float_mod total_seconds 3600 in
  let current_m := float_floordiv rem 60 in
  let current_s := float_mod rem 60 in
  (current_h, current_m, current_s).

Definition clock_time (cfg : Config) (frame : Z) : result (Q * Q * Q) :=
  total_seconds <- float_total cfg frame ;;
  Ok (break_total total_seconds).

(** Part B (lines 238-240): the three hand angles, in degrees. *)
Definition hour_angle_of (current_h current_m : Q) : Q :=
  90 - (current_h * 30 + (current_m / 60) * 30).

Definition minute_angle_of (current_m current_s : Q) : Q :=
  90 - (current_m * 6 + (current_s / 60) * 6).

Definition second_angle_of (current_s : Q) : Q :=
  90 - (current_s * 6).

Definition hand_angles (hms : Q * Q * Q) : Q * Q * Q :=
  let '(current_h, current_m, current_s) := hms in
  (hour_angle_of current_h current_m,
   minute_angle_of current_m current_s,
   second_angle_of current_s).

(** Part C (lines 243-250): the end point of a hand. *)
Definition hand_endpoint (length_fraction r_dial angle : Q) : R * R :=
  polar_to_cartesian (Q2R (length_fraction * r_dial)) (Q2R angle) default_center.

Definition hand_line (p : R * R) : Line2D :=
  set_data [0%R; fst p] [0%R; snd p].

(** Part D (lines 253-266): alpha and vertical position of the text. *)
Definition fade_start_frame (cfg : Config) : Z := (FPS cfg * 1)%Z.
Definition fade_end_frame (cfg : Config) : Z := (FPS cfg * 3)%Z.

Definition text_fade (cfg : Config) (frame : Z) : result (Q * Q) :=
  if (frame <? fade_start_frame cfg)%Z then
    Ok (0, -1)
  else if (frame <=? fade_end_frame cfg)%Z then
    t <- int_truediv (frame - fade_start_frame cfg)
                     (fade_end_frame cfg - fade_start_frame cfg) ;;
    Ok (t, -1 + (1 # 2) * t)
  else
    Ok (1, -(1 # 2)).

(** [update_frame], in the order of the script: A, B, C, D, then the
    writes to the text artist. *)
Definition update_frame (cfg : Config) (frame : Z) (a : Artists)
  : result Artists :=
  hms <- clock_time cfg frame ;;
  let '(hour_angle, minute_angle, second_angle) := hand_angles hms in
  let h := hand_endpoint (HOUR_HAND_LENGTH cfg) (R_DIAL cfg) hour_angle in
  let m := hand_endpoint (MINUTE_HAND_LENGTH cfg) (R_DIAL cfg) minute_angle in
  let s := hand_endpoint (SECOND_HAND_LENGTH cfg) (R_DIAL cfg) second_angle in
  ay <- text_fade cfg frame ;;
  Ok {| hour_line := hand_line h;
        minute_line := hand_line m;
        second_line := hand_line s;
        birthday_text := {| text := " Message ";
                            alpha := fst ay;
                            position := (0, snd ay) |} |}.

(* ================================================================== *)
(** ** The specification's reading of [mod] and [div] on real values *)

(** Modelled after the words of the specification, which uses [mod] and
    [div] on real-valued seconds: [r] is [x mod m] when it lies in
    [[0, m)] and differs from [x] by a whole multiple of [m]; [q] is
    [x div m] when it is the whole number of times [m] fits into [x]. *)
Definition is_mod (x m r : Q) : Prop :=
  0 <= r /\ r < m /\ exists k : Z, x == inject_Z k * m + r.


(** Steps 1-3 of the specified frame state function. *)
Definition spec_total (cfg : Config) (f : Z) : Q :=
  (inject_Z (START_HOUR cfg) * 3600 + inject_Z (START_MINUTE cfg) * 60
   + inject_Z (START_SECOND cfg))
  + inject_Z f / inject_Z (FPS cfg).


(** A clock reading inside the ranges of a 12-hour face. *)
Definition in_range (hms : Q * Q * Q) : Prop :=
  let '(h, m, s) := hms in
  (0 <= h /\ h < 12) /\ (0 <= m /\ m < 60) /\ (0 <= s /\ s < 60).

(** A result that is a clock reading (or a triple of angles) equal, as
    rational numbers, to the given one. *)
Definition reads (r : result (Q * Q * Q)) (a b c : Q) : Prop :=
  match r with
  | Ok (a', b', c') => a' == a /\ b' == b /\ c' == c
  | _ => False
  end.

(** The same for the pair (alpha, vertical position) of the text. *)
Definition fades (r : result (Q * Q)) (a y : Q) : Prop :=
  match r with
  | Ok (a', y') => a' == a /\ y' == y
  | _ => False
  end.

(** The components of the triple that [hand_angles] returns. *)
Definition hour_angle (angles : Q * Q * Q) : Q := fst (fst angles).
Definition minute_angle (angles : Q * Q * Q) : Q := snd (fst angles).
Definition second_angle (angles : Q * Q * Q) : Q := snd angles.

(** The animation driver calls [update_frame] once per frame, in order,
    on the same artists; the first exception ends the run. *)
Fixpoint play (cfg : Config) (frames : list Z) (a : Artists) : result Artists :=
  match frames with
  | [] => Ok a
  | frame :: rest => a' <- update_frame cfg frame a ;; play cfg rest a'
  end.

(** What [update_frame] leaves in the artists when neither division
    raises: the three hands drawn from the centre to their end points
    and the text with its new alpha and position. *)
Definition drawn (cfg : Config) (hms : Q * Q * Q) (ay : Q * Q) : Artists :=
  let angles := hand_angles hms in
  {| hour_line :=
       hand_line (hand_endpoint (HOUR_HAND_LENGTH cfg) (R_DIAL cfg) (hour_angle angles));
     minute_line :=
       hand_line (hand_endpoint (MINUTE_HAND_LENGTH cfg) (R_DIAL cfg) (minute_angle angles));
     second_line :=
       hand_line (hand_endpoint (SECOND_HAND_LENGTH cfg) (R_DIAL cfg) (second_angle angles));
     birthday_text := {| text := " Message ";
                         alpha := fst ay;
                         position := (0, snd ay) |} |}.

(** The script's configuration with another frame rate. *)
Definition with_fps (fps : Z) : Config :=
  {| R_DIAL := R_DIAL script_config;
     HOUR_HAND_LENGTH := HOUR_HAND_LENGTH script_config;
     MINUTE_HAND_LENGTH := MINUTE_HAND_LENGTH script_config;
     SECOND_HAND_LENGTH := SECOND_HAND_LENGTH script_config;
     START_HOUR := START_HOUR script_config;
     START_MINUTE := START_MINUTE script_config;
     START_SECOND := START_SECOND script_config;
     FPS := fps;
     ANIM_DURATION := ANIM_DURATION script_config;
     TOTAL_FRAMES := (fps * ANIM_DURATION script_config)%Z |}.

(* ================================================================== *)
(** ** 3. Static watch elements: hour indices, numerals and the logo *)

Definition TICK_LONG : Q := 12 # 100.
Definition TICK_SHORT : Q := 8 # 100.
Definition TICK_WIDTH : Q := 15 # 1000.

(** [range(n)]. *)
Definition range (n : nat) : list Z := map Z.of_nat (seq 0 n).

(** What [ax.plot] receives for one hour index: the segment from the
    inner to the outer end and the line width. *)
Record Tick : Type := {
  tick_line : Line2D;
  tick_linewidth : Q
}.

(** The body of the loop of section 3.5 (lines 105-121). *)
Definition hour_tick (cfg : Config) (h : Z) : Tick :=
  let angle_deg := (90 - h * 30)%Z in
  let '(length, width) :=
    if (h mod 3 =? 0)%Z then (TICK_LONG, TICK_WIDTH * (14 # 10))
    else (TICK_SHORT, TICK_WIDTH) in
  let outer := polar_to_cartesian (Q2R (R_DIAL cfg - (2 # 100)))
                                  (IZR angle_deg) default_center in
  let inner := polar_to_cartesian (Q2R (R_DIAL cfg - (2 # 100) - length))
                                  (IZR angle_deg) default_center in
  {| tick_line := set_data [fst inner; fst outer] [snd inner; snd outer];
     tick_linewidth := width |}.

Definition hour_indices (cfg : Config) : list Tick :=
  map (hour_tick cfg) (range 12).

(** The numerals (lines 123-162).  A drawn numeral: its string, its
    anchor point, its font size and whether it sits in a box. *)
Record Numeral : Type := {
  numeral_text : string;
  numeral_xy : R * R;
  numeral_fontsize : Z;
  numeral_boxed : bool
}.

Definition roman_labels : list string :=
  ["XII"; "I"; "II"; "III"; "IIII"; "V"; "VI"; "VII"; "VIII"; "IX"; "X"; "XI"]%string.

Definition R_NUMERAL (cfg : Config) : Q := R_DIAL cfg - (15 # 100).

(** [enumerate(labels)]. *)
Definition enumerate (labels : list string) : list (Z * string) :=
  combine (range (List.length labels)) labels.

(** One turn of the loop: the texts on the axes before it, the pair
    [(h, label)], the texts after it.  "XII" is skipped, "III" is
    replaced by a boxed "25". *)
Definition numeral_step (cfg : Config) (texts : list Numeral) (hl : Z * string)
  : list Numeral :=
  let '(h, label) := hl in
  let angle := (90 - h * 30)%Z in
  let xy := polar_to_cartesian (Q2R (R_NUMERAL cfg)) (IZR angle) default_center in
  if String.eqb label "XII" then texts
  else if String.eqb label "III" then
    texts ++ [{| numeral_text := "25"; numeral_xy := xy;
                 numeral_fontsize := 14; numeral_boxed := true |}]
  else
    texts ++ [{| numeral_text := label; numeral_xy := xy;
                 numeral_fontsize := 18; numeral_boxed := false |}].

Definition draw_numerals (cfg : Config) (labels : list string) : list Numeral :=
  fold_left (numeral_step cfg) (enumerate labels) [].

(** The logo (lines 164-174).  A pixel of the RGBA image, four [uint8]
    channels. *)
Record Pixel : Type := {
  red : Z;
  green : Z;
  blue : Z;
  opacity : Z
}.

Definition uint8 (c : Z) : Prop := (0 <= c <= 255)%Z.

Definition pixel_ok (p : Pixel) : Prop :=
  uint8 (red p) /\ uint8 (green p) /\ uint8 (blue p) /\ uint8 (opacity p).

(** [np.all(data[:, :, :3] > 240, axis=2)] at one pixel. *)
Definition white_mask (p : Pixel) : bool :=
  ((240 <? red p) && (240 <? green p) && (240 <? blue p))%Z.

(** [data[white_mask, 3] = 0] at one pixel and on the whole array. *)
Definition clear_white (p : Pixel) : Pixel :=
  if white_mask p then
    {| red := red p; green := green p; blue := blue p; opacity := 0 |}
  else p.

Definition knock_out_white (data : list (list Pixel)) : list (list Pixel) :=
  map (map clear_white) data.

(** [data.astype(float) / 255.0]. *)
Definition normalise (p : Pixel) : Q * Q * Q * Q :=
  (inject_Z (red p) / 255, inject_Z (green p) / 255,
   inject_Z (blue p) / 255, inject_Z (opacity p) / 255).

Definition logo_arr (data : list (list Pixel)) : list (list (Q * Q * Q * Q)) :=
  map (map normalise) (knock_out_white data).

(** The alpha of the text in a result of [text_fade]. *)
Definition text_alpha (r : result (Q * Q)) (a : Q) : Prop :=
  match r with
  | Ok (a', _) => a' == a
  | _ => False
  end.

(** Squared distance of two points of the plane. *)
Definition dist2 (p q : R * R) : R :=
  ((fst p - fst q) * (fst p - fst q) + (snd p - snd q) * (snd p - snd q))%R.

(** The remainder of real numbers the specification means by [mod]. *)
Definition real_mod (x m : Q) : Q := x - m * inject_Z (Qfloor (x / m)).

(** Step 3 of the specified frame state function, on a real total. *)
Definition real_break (total : Q) : Q * Q * Q :=
  (float_floordiv (real_mod total 43200) 3600,
   float_floordiv (real_mod total 3600) 60,
   real_mod (real_mod total 3600) 60).

(** A multiple of [2 ^ g]. *)
Definition on_grid (g : Z) (x : Q) : Prop := exists k : Z, x == inject_Z k * pow2 g.

(** The exponent of the grid [round64 q] lies on. *)
Definition grid_exponent (q : Q) : Z := ulp_exponent (Qred q).

(** The largest binary64 number. *)
Definition binary64_max : Z := (2 ^ 1024 - 2 ^ 971)%Z.


(** The two remainders [break_total] takes of a total are the exact
    remainders of real numbers. *)
Definition remainders_exact (total : Q) : Prop :=
  float_mod total 43200 == real_mod total 43200 /\
  float_mod total 3600 == real_mod total 3600.

(** A configuration of the script's dial with a clock that starts at
    0:00:00 and a frame rate of [fps]. *)
Definition midnight_config (fps : Z) : Config :=
  {| R_DIAL := R_DIAL script_config;
     HOUR_HAND_LENGTH := HOUR_HAND_LENGTH script_config;
     MINUTE_HAND_LENGTH := MINUTE_HAND_LENGTH script_config;
     SECOND_HAND_LENGTH := SECOND_HAND_LENGTH script_config;
     START_HOUR := 0;
     START_MINUTE := 0;
     START_SECOND := 0;
     FPS := fps;
     ANIM_DURATION := ANIM_DURATION script_config;
     TOTAL_FRAMES := (fps * ANIM_DURATION script_config)%Z |}.

(** The alpha of the text as the binary64 number the script holds: the
    quotient of the fade step, rounded. *)
Definition binary64_alpha (r : result (Q * Q)) (a : Q) : Prop :=
  match r with
  | Ok (a', _) => round64 a' == a
  | _ => False
  end.

(* ================================================================== *)
(** ** Arithmetic of [//] and [%] *)

Section FloorArithmetic.

Variable m : Q.
Hypothesis m_pos : 0 < m.

Lemma pos_nonzero : ~ m == 0.
Proof. intros E. rewrite E in m_pos. exact (Qlt_irrefl 0 m_pos). Qed.

Lemma floor_bounds (x : Q) :
  m * inject_Z (Qfloor (x / m)) <= x /\
  x < m * inject_Z (Qfloor (x / m)) + m.
Proof.
  assert (Hx : x == m * (x / m)) by (field; exact pos_nonzero).
  pose proof (Qfloor_le (x / m)) as Hlo.
  pose proof (Qlt_floor (x / m)) as Hhi.
  rewrite inject_Z_plus in Hhi. change (inject_Z 1) with 1 in Hhi.
  split.
  - rewrite Hx at 2. apply Qmult_le_l; assumption.
  - apply Qlt_le_trans with (m * (inject_Z (Qfloor (x / m)) + 1)).
    + rewrite Hx at 1. apply Qmult_lt_l; assumption.
    + apply Qle_lteq. right. ring.
Qed.

Lemma real_mod_range (x : Q) : 0 <= real_mod x m /\ real_mod x m < m.
Proof.
  unfold real_mod. destruct (floor_bounds x) as [Hlo Hhi].
  set (p := m * inject_Z (Qfloor (x / m))) in *. split; lra.
Qed.

Lemma float_divmod (x : Q) : x == float_floordiv x m * m + real_mod x m.
Proof. unfold float_floordiv, real_mod. ring. Qed.

(** Two whole numbers whose multiples of [m] are less than [m] apart
    are equal. *)
Lemma multiples_apart (j k : Z) (r r' : Q) :
  0 <= r -> r < m -> 0 <= r' -> r' < m ->
  inject_Z j * m + r == inject_Z k * m + r' -> j = k.
Proof.
  intros Hr0 Hr1 Hr0' Hr1' E.
  destruct (Z.lt_trichotomy j k) as [Hlt | [Heq | Hgt]]; [ | exact Heq | ]; exfalso.
  - assert (H1 : inject_Z j + 1 <= inject_Z k).
    { change 1 with (inject_Z 1). rewrite <- inject_Z_plus, <- Zle_Qle. lia. }
    assert (H2 : (inject_Z j + 1) * m <= inject_Z k * m)
      by (apply Qmult_le_compat_r; [exact H1 | apply Qlt_le_weak, m_pos]).
    assert (H3 : (inject_Z j + 1) * m == inject_Z j * m + m) by ring.
    rewrite H3 in H2.
    set (a := inject_Z j * m) in *. set (b := inject_Z k * m) in *. lra.
  - assert (H1 : inject_Z k + 1 <= inject_Z j).
    { change 1 with (inject_Z 1). rewrite <- inject_Z_plus, <- Zle_Qle. lia. }
    assert (H2 : (inject_Z k + 1) * m <= inject_Z j * m)
      by (apply Qmult_le_compat_r; [exact H1 | apply Qlt_le_weak, m_pos]).
    assert (H3 : (inject_Z k + 1) * m == inject_Z k * m + m) by ring.
    rewrite H3 in H2.
    set (a := inject_Z j * m) in *. set (b := inject_Z k * m) in *. lra.
Qed.

(** [%] and [//] meet the specification's [mod] and [div] ... *)
Lemma real_mod_is_mod (x x' : Q) : x == x' -> is_mod x' m (real_mod x m).
Proof.
  intros E. destruct (real_mod_range x) as [H0 H1].
  split; [exact H0 | split; [exact H1 | ]].
  exists (Qfloor (x / m)). rewrite <- E. unfold real_mod. ring.
Qed.


(** ... and are the only values that do. *)
Lemma is_mod_unique (x r r' : Q) : is_mod x m r -> is_mod x m r' -> r == r'.
Proof.
  intros (H0 & H1 & j & Ej) (H0' & H1' & k & Ek).
  assert (E : inject_Z j * m + r == inject_Z k * m + r')
    by (rewrite <- Ej, <- Ek; reflexivity).
  pose proof (multiples_apart j k r r' H0 H1 H0' H1' E) as Hjk. subst k.
  set (a := inject_Z j * m) in *. lra.
Qed.




(** A quotient of a value below [n * m] is a whole number below [n]. *)
Lemma float_floordiv_range (x : Q) (n : Z) :
  0 <= x -> x < inject_Z n * m ->
  0 <= float_floordiv x m /\ float_floordiv x m < inject_Z n.
Proof.
  intros Hx0 Hx1. unfold float_floordiv.
  destruct (floor_bounds x) as [Hlo Hhi].
  set (k := Qfloor (x / m)) in *.
  split.
  - change 0 with (inject_Z 0). rewrite <- Zle_Qle.
    destruct (Z_lt_le_dec k 0) as [Hneg | Hok]; [exfalso | exact Hok].
    assert (H1 : inject_Z k + 1 <= 0).
    { change 1 with (inject_Z 1). change 0 with (inject_Z 0).
      rewrite <- inject_Z_plus, <- Zle_Qle. lia. }
    assert (H2 : m * (inject_Z k + 1) <= m * 0)
      by (apply Qmult_le_l; [exact m_pos | exact H1]).
    assert (H3 : m * (inject_Z k + 1) == m * inject_Z k + m) by ring.
    rewrite H3 in H2. set (a := m * inject_Z k) in *. lra.
  - rewrite <- Zlt_Qlt.
    destruct (Z_lt_le_dec k n) as [Hok | Hbig]; [exact Hok | exfalso].
    assert (H1 : inject_Z n <= inject_Z k) by (rewrite <- Zle_Qle; exact Hbig).
    assert (H2 : inject_Z n * m <= inject_Z k * m)
      by (apply Qmult_le_compat_r; [exact H1 | apply Qlt_le_weak, m_pos]).
    assert (H3 : inject_Z k * m == m * inject_Z k) by ring.
    rewrite H3 in H2. set (a := m * inject_Z k) in *.
    set (b := inject_Z n * m) in *. lra.
Qed.

End FloorArithmetic.

(** [//] and [%] respect equality of rational numbers. *)
Lemma float_floordiv_comp (x x' m : Q) :
  x == x' -> float_floordiv x m = float_floordiv x' m.
Proof.
  intros E. unfold float_floordiv. f_equal. apply Qfloor_comp.
  rewrite E. reflexivity.
Qed.

Lemma real_mod_comp (x x' m : Q) : x == x' -> real_mod x m == real_mod x' m.
Proof.
  intros E. unfold real_mod.
  rewrite (Qfloor_comp (x / m) (x' / m)) by (rewrite E; reflexivity).
  rewrite E. reflexivity.
Qed.

(** Shifting by a whole number moves the floor by that number. *)
Lemma Qfloor_shift (x : Q) (n : Z) : Qfloor (x + inject_Z n) = (Qfloor x + n)%Z.
Proof.
  pose proof (Qfloor_le x) as Hlo. pose proof (Qlt_floor x) as Hhi.
  pose proof (Qfloor_le (x + inject_Z n)) as Hlo'.
  pose proof (Qlt_floor (x + inject_Z n)) as Hhi'.
  rewrite inject_Z_plus in Hhi, Hhi'. change (inject_Z 1) with 1 in Hhi, Hhi'.
  assert (H1 : inject_Z (Qfloor (x + inject_Z n)) < inject_Z (Qfloor x + n + 1)).
  { rewrite !inject_Z_plus. change (inject_Z 1) with 1. lra. }
  assert (H2 : inject_Z (Qfloor x + n) < inject_Z (Qfloor (x + inject_Z n) + 1)).
  { rewrite !inject_Z_plus. change (inject_Z 1) with 1. lra. }
  rewrite <- Zlt_Qlt in H1, H2. lia.
Qed.

Lemma real_mod_period (x m : Q) (n : Z) :
  0 < m -> real_mod (x + inject_Z n * m) m == real_mod x m.
Proof.
  intros Hm. unfold real_mod.
  assert (E : (x + inject_Z n * m) / m == x / m + inject_Z n)
    by (field; apply pos_nonzero; exact Hm).
  rewrite (Qfloor_comp _ _ E), Qfloor_shift, inject_Z_plus. ring.
Qed.

(* ================================================================== *)
(** ** Rounding to binary64 *)

Lemma pow2_pos (z : Z) : 0 < pow2 z.
Proof. apply Qpower_0_lt. reflexivity. Qed.

Lemma pow2_add (a b : Z) : pow2 (a + b) == pow2 a * pow2 b.
Proof. apply Qpower_plus. discriminate. Qed.

Lemma pow2_le (a b : Z) : (a <= b)%Z -> pow2 a <= pow2 b.
Proof. intros H. apply Qpower_le_compat_l; [exact H | discriminate]. Qed.

Lemma pow2_lt (a b : Z) : (a < b)%Z -> pow2 a < pow2 b.
Proof. intros H. apply Qpower_lt_compat_l; [exact H | reflexivity]. Qed.

Lemma pow2_lt_inv (a b : Z) : pow2 a < pow2 b -> (a < b)%Z.
Proof.
  intros H. destruct (Z_lt_le_dec a b) as [Hlt | Hge]; [exact Hlt | exfalso].
  apply (Qlt_not_le _ _ H). apply pow2_le. exact Hge.
Qed.

Lemma pow2_Z (n : Z) : (0 <= n)%Z -> pow2 n == inject_Z (2 ^ n).
Proof. intros H. unfold pow2. rewrite Zpower_Qpower by exact H. reflexivity. Qed.


(** [Qlog2 q] is the binary exponent of a positive [q]. *)
Lemma Qlog2_spec (q : Q) :
  0 < q -> pow2 (Qlog2 q) <= q /\ q < pow2 (Qlog2 q + 1).
Proof.
  intros Hq. destruct q as [a b]. unfold Qlog2. cbn [Qnum Qden].
  assert (Ha : (0 < a)%Z).
  { unfold Qlt in Hq. cbn in Hq. lia. }
  destruct (Z.log2_spec a Ha) as [Ha0 Ha1].
  destruct (Z.log2_spec (Zpos b) (Pos2Z.is_pos b)) as [Hb0 Hb1].
  pose proof (Z.log2_nonneg a) as Hla. pose proof (Z.log2_nonneg (Zpos b)) as Hlb.
  set (la := Z.log2 a) in *. set (lb := Z.log2 (Zpos b)) in *.
  assert (Hbpos : 0 < inject_Z (Zpos b)) by reflexivity.
  assert (Eq : a # b == inject_Z a / inject_Z (Zpos b)) by apply Qmake_Qdiv.
  assert (Qa0 : pow2 la <= inject_Z a)
    by (rewrite pow2_Z by exact Hla; rewrite <- Zle_Qle; exact Ha0).
  assert (Qa1 : inject_Z a < pow2 (la + 1))
    by (rewrite pow2_Z by lia; rewrite <- Zlt_Qlt; exact Ha1).
  assert (Qb0 : pow2 lb <= inject_Z (Zpos b))
    by (rewrite pow2_Z by exact Hlb; rewrite <- Zle_Qle; exact Hb0).
  assert (Qb1 : inject_Z (Zpos b) < pow2 (lb + 1))
    by (rewrite pow2_Z by lia; rewrite <- Zlt_Qlt; exact Hb1).
  assert (Hup : a # b < pow2 (la - lb + 1)).
  { rewrite Eq. apply Qlt_shift_div_r; [exact Hbpos | ].
    apply Qlt_le_trans with (pow2 (la + 1)); [exact Qa1 | ].
    replace (la + 1)%Z with ((la - lb + 1) + lb)%Z by lia.
    rewrite pow2_add. apply Qmult_le_l; [apply pow2_pos | exact Qb0]. }
  assert (Hlow : pow2 (la - lb - 1) <= a # b).
  { rewrite Eq. apply Qle_shift_div_l; [exact Hbpos | ].
    apply Qle_trans with (pow2 la); [ | exact Qa0].
    replace la with ((la - lb - 1) + (lb + 1))%Z at 2 by lia.
    rewrite pow2_add. apply Qmult_le_l; [apply pow2_pos | ].
    apply Qlt_le_weak. exact Qb1. }
  destruct (Qle_bool (pow2 (la - lb)) (a # b)) eqn:E.
  - apply Qle_bool_iff in E. split; [exact E | exact Hup].
  - assert (Hlt : a # b < pow2 (la - lb)).
    { apply Qnot_le_lt. intros H. apply Qle_bool_iff in H. congruence. }
    split; [exact Hlow | ].
    replace (la - lb - 1 + 1)%Z with (la - lb)%Z by lia. exact Hlt.
Qed.

Lemma Qlog2_le (q : Q) (g : Z) : 0 < q -> q < pow2 (g + 1) -> (Qlog2 q <= g)%Z.
Proof.
  intros Hq Hlt. destruct (Qlog2_spec q Hq) as [Hlo _].
  assert (H : pow2 (Qlog2 q) < pow2 (g + 1)) by (eapply Qle_lt_trans; eassumption).
  apply pow2_lt_inv in H. lia.
Qed.

Lemma Qlog2_ge (q : Q) (g : Z) : 0 < q -> pow2 g <= q -> (g <= Qlog2 q)%Z.
Proof.
  intros Hq Hle. destruct (Qlog2_spec q Hq) as [_ Hhi].
  assert (H : pow2 g < pow2 (Qlog2 q + 1)) by (eapply Qle_lt_trans; eassumption).
  apply pow2_lt_inv in H. lia.
Qed.

(** Rounding to the nearest whole number. *)
Lemma round_half_even_near (x : Q) :
  inject_Z (round_half_even x) - (1 # 2) <= x /\
  x <= inject_Z (round_half_even x) + (1 # 2).
Proof.
  unfold round_half_even.
  pose proof (Qfloor_le x) as Hlo. pose proof (Qlt_floor x) as Hhi.
  rewrite inject_Z_plus in Hhi. change (inject_Z 1) with 1 in Hhi.
  set (n := Qfloor x) in *.
  destruct (Qcompare_spec (x - inject_Z n) (1 # 2)) as [E | L | G].
  - destruct (Z.even n).
    + split; lra.
    + rewrite inject_Z_plus. change (inject_Z 1) with 1. split; lra.
  - split; lra.
  - rewrite inject_Z_plus. change (inject_Z 1) with 1. split; lra.
Qed.

Lemma round_half_even_Z (x : Q) (n : Z) : x == inject_Z n -> round_half_even x = n.
Proof.
  intros E. destruct (round_half_even_near x) as [Hlo Hhi].
  assert (H1 : inject_Z (round_half_even x) < inject_Z (n + 1))
    by (rewrite inject_Z_plus; change (inject_Z 1) with 1; lra).
  assert (H2 : inject_Z n < inject_Z (round_half_even x + 1))
    by (rewrite inject_Z_plus; change (inject_Z 1) with 1; lra).
  rewrite <- Zlt_Qlt in H1, H2. lia.
Qed.

Lemma round_half_even_le (x : Q) (n : Z) :
  x < inject_Z n + (1 # 2) -> (round_half_even x <= n)%Z.
Proof.
  intros H. destruct (round_half_even_near x) as [Hlo _].
  assert (H1 : inject_Z (round_half_even x) < inject_Z (n + 1))
    by (rewrite inject_Z_plus; change (inject_Z 1) with 1; lra).
  rewrite <- Zlt_Qlt in H1. lia.
Qed.

Lemma round_half_even_ge (x : Q) (n : Z) :
  inject_Z n - (1 # 2) < x -> (n <= round_half_even x)%Z.
Proof.
  intros H. destruct (round_half_even_near x) as [_ Hhi].
  assert (H1 : inject_Z n < inject_Z (round_half_even x + 1))
    by (rewrite inject_Z_plus; change (inject_Z 1) with 1; lra).
  rewrite <- Zlt_Qlt in H1. lia.
Qed.


Lemma round64_comp (p q : Q) : p == q -> round64 p = round64 q.
Proof. intros E. unfold round64. rewrite (Qred_complete p q E). reflexivity. Qed.

Lemma ulp_exponent_comp (p q : Q) : p == q -> ulp_exponent (Qred p) = ulp_exponent (Qred q).
Proof. intros E. rewrite (Qred_complete p q E). reflexivity. Qed.

Lemma round64_on_grid (q : Q) :
  round64 q = inject_Z (round_half_even (Qred q / pow2 (grid_exponent q)))
              * pow2 (grid_exponent q).
Proof. reflexivity. Qed.

Lemma round64_near (q : Q) :
  round64 q - (1 # 2) * pow2 (grid_exponent q) <= q /\
  q <= round64 q + (1 # 2) * pow2 (grid_exponent q).
Proof.
  rewrite round64_on_grid.
  pose proof (pow2_pos (grid_exponent q)) as Hp.
  set (u := pow2 (grid_exponent q)) in *.
  destruct (round_half_even_near (Qred q / u)) as [Hlo Hhi].
  set (n := inject_Z (round_half_even (Qred q / u))) in *.
  assert (Eq : q == (Qred q / u) * u).
  { rewrite <- (Qred_correct q) at 1. field. intros E. rewrite E in Hp. discriminate Hp. }
  set (x := Qred q / u) in *. clearbody x n u.
  assert (H1 : (n - (1 # 2)) * u <= x * u)
    by (apply Qmult_le_compat_r; [exact Hlo | apply Qlt_le_weak, Hp]).
  assert (H2 : x * u <= (n + (1 # 2)) * u)
    by (apply Qmult_le_compat_r; [exact Hhi | apply Qlt_le_weak, Hp]).
  rewrite Eq. split.
  - apply Qle_trans with ((n - (1 # 2)) * u); [ | exact H1].
    apply Qle_lteq. right. ring.
  - apply Qle_trans with ((n + (1 # 2)) * u); [exact H2 | ].
    apply Qle_lteq. right. ring.
Qed.

Lemma round64_nonneg (q : Q) : 0 <= q -> 0 <= round64 q.
Proof.
  intros Hq. rewrite round64_on_grid.
  pose proof (pow2_pos (grid_exponent q)) as Hp.
  apply Qmult_le_0_compat; [ | apply Qlt_le_weak, Hp].
  change 0 with (inject_Z 0). rewrite <- Zle_Qle.
  apply round_half_even_ge. change (inject_Z 0) with 0.
  apply Qlt_le_trans with 0; [reflexivity | ].
  apply Qle_shift_div_l; [exact Hp | ]. rewrite Qmult_0_l, Qred_correct. exact Hq.
Qed.

Lemma round64_nonpos (q : Q) : q <= 0 -> round64 q <= 0.
Proof.
  intros Hq. rewrite round64_on_grid.
  pose proof (pow2_pos (grid_exponent q)) as Hp.
  set (u := pow2 (grid_exponent q)) in *.
  assert (Hn : (round_half_even (Qred q / u) <= 0)%Z).
  { apply round_half_even_le. change (inject_Z 0) with 0.
    apply Qle_lt_trans with 0; [ | reflexivity].
    apply Qle_shift_div_r; [exact Hp | ]. rewrite Qmult_0_l, Qred_correct. exact Hq. }
  rewrite Zle_Qle in Hn. change (inject_Z 0) with 0 in Hn.
  set (n := inject_Z (round_half_even (Qred q / u))) in *. clearbody n u.
  assert (H : n * u <= 0 * u) by (apply Qmult_le_compat_r; [exact Hn | apply Qlt_le_weak, Hp]).
  lra.
Qed.

(** The grid of a number below [2 ^ (g + 53)] is at least as fine as
    [2 ^ g] (down to the subnormal grid [2 ^ -1074]), and the grid of a
    number of magnitude at least [2 ^ (g + 52)] is at least as coarse. *)
Lemma Qnum_zero (q : Q) : (Qnum q = 0)%Z <-> q == 0.
Proof. unfold Qeq. cbn. lia. Qed.

Lemma Qabs_pos_nonzero (q : Q) : ~ q == 0 -> 0 < Qabs q.
Proof.
  intros Hq. destruct (Qlt_le_dec 0 (Qabs q)) as [H | H]; [exact H | exfalso].
  apply Hq. destruct (Qabs_Qle_condition q 0) as [Hc _].
  destruct (Hc H) as [H1 H2]. apply Qle_antisym; [exact H2 | exact H1].
Qed.

Lemma grid_exponent_nonzero (q : Q) :
  ~ q == 0 -> grid_exponent q = Z.max (Qlog2 (Qabs (Qred q)) - 52) (-1074).
Proof.
  intros Hq. unfold grid_exponent, ulp_exponent.
  destruct (Z.eqb_spec (Qnum (Qred q)) 0) as [E | _]; [exfalso | reflexivity].
  apply Hq. rewrite <- (Qred_correct q). apply Qnum_zero. exact E.
Qed.

Lemma grid_exponent_le (q : Q) (g : Z) :
  (-1074 <= g)%Z -> Qabs q < pow2 (g + 53) -> (grid_exponent q <= g)%Z.
Proof.
  intros Hg Hq.
  destruct (Qeq_dec q 0) as [Ez | Hnz].
  - unfold grid_exponent, ulp_exponent.
    rewrite (Qred_complete q 0 Ez). exact Hg.
  - rewrite (grid_exponent_nonzero q Hnz).
    assert (Ea : Qabs (Qred q) == Qabs q) by (rewrite Qred_correct; reflexivity).
    assert (Hpos : 0 < Qabs (Qred q)) by (rewrite Ea; apply Qabs_pos_nonzero; exact Hnz).
    assert (H : (Qlog2 (Qabs (Qred q)) <= g + 52)%Z).
    { apply Qlog2_le; [exact Hpos | ]. rewrite Ea.
      replace (g + 52 + 1)%Z with (g + 53)%Z by lia. exact Hq. }
    lia.
Qed.

Lemma grid_exponent_ge (q : Q) (g : Z) :
  pow2 (g + 52) <= Qabs q -> (g <= grid_exponent q)%Z.
Proof.
  intros Hq.
  assert (Hnz : ~ q == 0).
  { intros Ez. rewrite Ez in Hq. pose proof (pow2_pos (g + 52)) as Hp.
    change (Qabs 0) with 0 in Hq. apply (Qlt_not_le _ _ Hp Hq). }
  rewrite (grid_exponent_nonzero q Hnz).
  assert (Ea : Qabs (Qred q) == Qabs q) by (rewrite Qred_correct; reflexivity).
  assert (Hpos : 0 < Qabs (Qred q)) by (rewrite Ea; apply Qabs_pos_nonzero; exact Hnz).
  assert (H : (g + 52 <= Qlog2 (Qabs (Qred q)))%Z).
  { apply Qlog2_ge; [exact Hpos | ]. rewrite Ea. exact Hq. }
  lia.
Qed.

Lemma grid_exponent_min (q : Q) : (-1074 <= grid_exponent q)%Z.
Proof.
  unfold grid_exponent, ulp_exponent.
  destruct (Qnum (Qred q) =? 0)%Z; lia.
Qed.

Lemma on_grid_coarser (g g' : Z) (x : Q) : (g <= g')%Z -> on_grid g' x -> on_grid g x.
Proof.
  intros Hg [k Ek]. exists (k * 2 ^ (g' - g))%Z.
  rewrite Ek, inject_Z_mult, <- pow2_Z by lia.
  replace g' with ((g' - g) + g)%Z at 1 by lia. rewrite pow2_add. ring.
Qed.

Lemma on_grid_plus (g : Z) (x y : Q) : on_grid g x -> on_grid g y -> on_grid g (x + y).
Proof.
  intros [k Ek] [j Ej]. exists (k + j)%Z. rewrite Ek, Ej, inject_Z_plus. ring.
Qed.

Lemma on_grid_mult_Z (g : Z) (x : Q) (n : Z) : on_grid g x -> on_grid g (inject_Z n * x).
Proof.
  intros [k Ek]. exists (n * k)%Z. rewrite Ek, inject_Z_mult. ring.
Qed.

Lemma on_grid_Z (g : Z) (n : Z) : (g <= 0)%Z -> on_grid g (inject_Z n).
Proof.
  intros Hg. exists (n * 2 ^ (- g))%Z.
  rewrite inject_Z_mult, <- pow2_Z by lia.
  assert (E : pow2 (- g) * pow2 g == 1).
  { rewrite <- pow2_add. replace (- g + g)%Z with 0%Z by lia. reflexivity. }
  rewrite <- Qmult_assoc, E. ring.
Qed.

Lemma on_grid_comp (g : Z) (x y : Q) : x == y -> on_grid g x -> on_grid g y.
Proof. intros E [k Ek]. exists k. rewrite <- E. exact Ek. Qed.

Lemma round64_grid (q : Q) : on_grid (grid_exponent q) (round64 q).
Proof. eexists. rewrite round64_on_grid. reflexivity. Qed.

(** Numbers on the grid of their own magnitude are not changed. *)
Lemma round64_exact (q : Q) (g : Z) :
  on_grid g q -> (grid_exponent q <= g)%Z -> round64 q == q.
Proof.
  intros Hq Hg. apply (on_grid_coarser _ _ _ Hg) in Hq. destruct Hq as [k Ek].
  rewrite round64_on_grid.
  pose proof (pow2_pos (grid_exponent q)) as Hp.
  set (u := pow2 (grid_exponent q)) in *.
  assert (Eu : ~ u == 0) by (intros E; rewrite E in Hp; discriminate Hp).
  rewrite (round_half_even_Z _ k).
  - symmetry. exact Ek.
  - rewrite Qred_correct, Ek. field. exact Eu.
Qed.

Lemma round64_representable (q : Q) (g : Z) :
  (-1074 <= g)%Z -> on_grid g q -> Qabs q < pow2 (g + 53) -> round64 q == q.
Proof.
  intros Hg Hq Hlt. apply (round64_exact q g Hq).
  apply grid_exponent_le; assumption.
Qed.

(** Rounding does not cross a number of the grid. *)
Lemma round64_le_grid (q b : Q) :
  on_grid (grid_exponent q) b -> q <= b -> round64 q <= b.
Proof.
  intros [k Ek] Hle. rewrite round64_on_grid.
  pose proof (pow2_pos (grid_exponent q)) as Hp.
  set (u := pow2 (grid_exponent q)) in *.
  assert (Hn : (round_half_even (Qred q / u) <= k)%Z).
  { apply round_half_even_le.
    apply Qle_lt_trans with (inject_Z k); [ | lra].
    apply Qle_shift_div_r; [exact Hp | ]. rewrite Qred_correct, <- Ek. exact Hle. }
  rewrite Zle_Qle in Hn. rewrite Ek.
  apply Qmult_le_compat_r; [exact Hn | apply Qlt_le_weak, Hp].
Qed.

Lemma round64_ge_grid (q b : Q) :
  on_grid (grid_exponent q) b -> b <= q -> b <= round64 q.
Proof.
  intros [k Ek] Hle. rewrite round64_on_grid.
  pose proof (pow2_pos (grid_exponent q)) as Hp.
  set (u := pow2 (grid_exponent q)) in *.
  assert (Hn : (k <= round_half_even (Qred q / u))%Z).
  { apply round_half_even_ge.
    apply Qlt_le_trans with (inject_Z k); [lra | ].
    apply Qle_shift_div_l; [exact Hp | ]. rewrite Qred_correct, <- Ek. exact Hle. }
  rewrite Zle_Qle in Hn. rewrite Ek.
  apply Qmult_le_compat_r; [exact Hn | apply Qlt_le_weak, Hp].
Qed.

(** Rounding stays on its side of a grid number that is less than half
    a unit away. *)
Lemma round64_le_half (q b : Q) :
  on_grid (grid_exponent q) b ->
  q < b + (1 # 2) * pow2 (grid_exponent q) -> round64 q <= b.
Proof.
  intros [k Ek] Hlt. rewrite round64_on_grid.
  pose proof (pow2_pos (grid_exponent q)) as Hp.
  set (u := pow2 (grid_exponent q)) in *.
  assert (Eu : ~ u == 0) by (intros E; rewrite E in Hp; discriminate Hp).
  assert (Hn : (round_half_even (Qred q / u) <= k)%Z).
  { apply round_half_even_le. apply Qlt_shift_div_r; [exact Hp | ].
    rewrite Qred_correct.
    apply Qlt_le_trans with (b + (1 # 2) * u); [exact Hlt | ].
    rewrite Ek. apply Qle_lteq. right. ring. }
  rewrite Zle_Qle in Hn. rewrite Ek.
  apply Qmult_le_compat_r; [exact Hn | apply Qlt_le_weak, Hp].
Qed.

Lemma round64_ge_half (q b : Q) :
  on_grid (grid_exponent q) b ->
  b - (1 # 2) * pow2 (grid_exponent q) < q -> b <= round64 q.
Proof.
  intros [k Ek] Hlt. rewrite round64_on_grid.
  pose proof (pow2_pos (grid_exponent q)) as Hp.
  set (u := pow2 (grid_exponent q)) in *.
  assert (Eu : ~ u == 0) by (intros E; rewrite E in Hp; discriminate Hp).
  assert (Hn : (k <= round_half_even (Qred q / u))%Z).
  { apply round_half_even_ge. apply Qlt_shift_div_l; [exact Hp | ].
    rewrite Qred_correct.
    apply Qle_lt_trans with (b - (1 # 2) * u); [ | exact Hlt].
    rewrite Ek. apply Qle_lteq. right. ring. }
  rewrite Zle_Qle in Hn. rewrite Ek.
  apply Qmult_le_compat_r; [exact Hn | apply Qlt_le_weak, Hp].
Qed.

(** The distance to the rounded number. *)
Lemma round64_error (q : Q) (g : Z) :
  (-1074 <= g)%Z -> Qabs q < pow2 (g + 53) ->
  - ((1 # 2) * pow2 g) <= round64 q - q /\ round64 q - q <= (1 # 2) * pow2 g.
Proof.
  intros Hg Hq.
  pose proof (pow2_le _ _ (grid_exponent_le q g Hg Hq)) as Hu.
  destruct (round64_near q) as [Hlo Hhi].
  set (u := pow2 (grid_exponent q)) in *. set (v := pow2 g) in *.
  set (r := round64 q) in *. clearbody u v r. split; lra.
Qed.

Lemma pow2_1023 : pow2 1023 == inject_Z (2 ^ 1023).
Proof. apply pow2_Z. lia. Qed.

Lemma binary64_max_on_grid : on_grid 971 (inject_Z binary64_max).
Proof.
  exists (2 ^ 53 - 1)%Z. rewrite (pow2_Z 971) by lia. rewrite <- inject_Z_mult.
  apply inject_Z_injective. vm_compute. reflexivity.
Qed.

(** Below the limit the rounded number is finite. *)
Lemma round64_below_limit (q : Q) :
  Qabs q < inject_Z binary64_limit ->
  - inject_Z binary64_max <= round64 q /\ round64 q <= inject_Z binary64_max.
Proof.
  intros Hq. apply Qabs_Qlt_condition in Hq. destruct Hq as [Hlo Hhi].
  assert (Hmax : pow2 1023 <= inject_Z binary64_max).
  { rewrite pow2_1023, <- Zle_Qle. vm_compute. discriminate. }
  assert (Hlim : inject_Z binary64_limit
                 == inject_Z binary64_max + (1 # 2) * pow2 971).
  { rewrite (pow2_Z 971) by lia.
    assert (E : (1 # 2) * inject_Z (2 ^ 971) == inject_Z (2 ^ 970)).
    { replace (2 ^ 971)%Z with (2 * 2 ^ 970)%Z
        by (rewrite <- Z.pow_succ_r by lia; reflexivity).
      rewrite inject_Z_mult. change (inject_Z 2) with 2. field. }
    rewrite E, <- inject_Z_plus. apply inject_Z_injective. vm_compute. reflexivity. }
  assert (Hlimlt : inject_Z binary64_limit < pow2 (971 + 53)).
  { rewrite (pow2_Z (971 + 53)) by lia. rewrite <- Zlt_Qlt. vm_compute. reflexivity. }
  destruct (Qlt_le_dec (Qabs q) (pow2 1023)) as [Hsmall | Hbig].
  - assert (Hg : (grid_exponent q <= 970)%Z)
      by (apply grid_exponent_le; [lia | exact Hsmall]).
    apply Qabs_Qlt_condition in Hsmall. destruct Hsmall as [Hs0 Hs1].
    assert (Gp : on_grid (grid_exponent q) (pow2 1023)).
    { apply (on_grid_coarser _ 1023); [lia | ]. exists 1%Z. ring. }
    assert (Gn : on_grid (grid_exponent q) (- pow2 1023)).
    { apply (on_grid_coarser _ 1023); [lia | ]. exists (-1)%Z.
      change (inject_Z (-1)) with (-(1)). ring. }
    pose proof (round64_le_grid q _ Gp (Qlt_le_weak _ _ Hs1)) as H1.
    pose proof (round64_ge_grid q _ Gn (Qlt_le_weak _ _ Hs0)) as H2.
    set (r := round64 q) in *. set (p := pow2 1023) in *.
    set (mx := inject_Z binary64_max) in *. clearbody r p mx. split; lra.
  - assert (Hg : grid_exponent q = 971%Z).
    { apply Z.le_antisymm.
      - apply grid_exponent_le; [lia | ].
        apply Qlt_trans with (inject_Z binary64_limit); [ | exact Hlimlt].
        apply Qabs_Qlt_condition. split; assumption.
      - apply grid_exponent_ge. exact Hbig. }
    assert (Gp : on_grid (grid_exponent q) (inject_Z binary64_max))
      by (rewrite Hg; exact binary64_max_on_grid).
    assert (Gn : on_grid (grid_exponent q) (- inject_Z binary64_max)).
    { destruct Gp as [k Ek]. exists (- k)%Z. rewrite inject_Z_opp, Ek. ring. }
    split.
    + apply round64_ge_half; [exact Gn | ]. rewrite Hg.
      set (h := (1 # 2) * pow2 971) in *. set (mx := inject_Z binary64_max) in *.
      set (lm := inject_Z binary64_limit) in *. clearbody h mx lm. lra.
    + apply round64_le_half; [exact Gp | ]. rewrite Hg.
      set (h := (1 # 2) * pow2 971) in *. set (mx := inject_Z binary64_max) in *.
      set (lm := inject_Z binary64_limit) in *. clearbody h mx lm. lra.
Qed.

(** Whole numbers below [2 ^ 53] are binary64 numbers. *)
Lemma round64_Z (n : Z) : (Z.abs n < 2 ^ 53)%Z -> round64 (inject_Z n) == inject_Z n.
Proof.
  intros Hn. apply (round64_representable _ 0); [lia | apply on_grid_Z; lia | ].
  change (0 + 53)%Z with 53%Z. rewrite (pow2_Z 53) by lia.
  change (Qabs (inject_Z n)) with (inject_Z (Z.abs n)). rewrite <- Zlt_Qlt. exact Hn.
Qed.

(* ================================================================== *)
(** ** Python's [%] against the remainder of real numbers *)

Lemma Qtruncate_comp (x y : Q) : x == y -> Qtruncate x = Qtruncate y.
Proof.
  intros E. unfold Qtruncate, Qceiling.
  assert (Eb : Qle_bool 0 x = Qle_bool 0 y).
  { destruct (Qle_bool 0 x) eqn:Hx; destruct (Qle_bool 0 y) eqn:Hy; try reflexivity.
    - apply Qle_bool_iff in Hx. rewrite E in Hx. apply Qle_bool_iff in Hx. congruence.
    - apply Qle_bool_iff in Hy. rewrite <- E in Hy. apply Qle_bool_iff in Hy. congruence. }
  rewrite Eb, (Qfloor_comp x y E).
  rewrite (Qfloor_comp (- x) (- y)) by (rewrite E; reflexivity). reflexivity.
Qed.

Lemma fmod_comp (x y m : Q) : x == y -> fmod x m == fmod y m.
Proof.
  intros E. unfold fmod.
  rewrite (Qtruncate_comp (x / m) (y / m)) by (rewrite E; reflexivity).
  rewrite E. reflexivity.
Qed.

Lemma Qle_bool_comp (a x y : Q) : x == y -> Qle_bool a x = Qle_bool a y.
Proof.
  intros E.
  destruct (Qle_bool a x) eqn:Hx; destruct (Qle_bool a y) eqn:Hy; try reflexivity.
  - apply Qle_bool_iff in Hx. rewrite E in Hx. apply Qle_bool_iff in Hx. congruence.
  - apply Qle_bool_iff in Hy. rewrite <- E in Hy. apply Qle_bool_iff in Hy. congruence.
Qed.

Lemma Qeq_bool_comp (x y : Q) : x == y -> Qeq_bool x 0 = Qeq_bool y 0.
Proof.
  intros E.
  destruct (Qeq_bool x 0) eqn:Hx; destruct (Qeq_bool y 0) eqn:Hy; try reflexivity.
  - apply Qeq_bool_iff in Hx. rewrite E in Hx. apply Qeq_bool_iff in Hx. congruence.
  - apply Qeq_bool_iff in Hy. rewrite <- E in Hy. apply Qeq_bool_iff in Hy. congruence.
Qed.

Lemma float_mod_comp (x y m : Q) : x == y -> float_mod x m == float_mod y m.
Proof.
  intros E. unfold float_mod. pose proof (fmod_comp x y m E) as Ef.
  rewrite (Qeq_bool_comp _ _ Ef), (Qle_bool_comp 0 _ _ Ef).
  destruct (Qeq_bool (fmod y m) 0); [reflexivity | ].
  destruct (xorb (negb (Qle_bool 0 m)) (negb (Qle_bool 0 (fmod y m)))).
  - rewrite (round64_comp (fmod x m + m) (fmod y m + m)) by (rewrite Ef; reflexivity).
    reflexivity.
  - exact Ef.
Qed.

Section PythonMod.

Variable m : Q.
Hypothesis m_pos : 0 < m.

Lemma m_nonneg_bool : Qle_bool 0 m = true.
Proof. apply Qle_bool_iff. apply Qlt_le_weak. exact m_pos. Qed.

Lemma fmod_nonneg (x : Q) : 0 <= x -> fmod x m = real_mod x m.
Proof.
  intros Hx. unfold fmod, real_mod, Qtruncate.
  assert (H : Qle_bool 0 (x / m) = true).
  { apply Qle_bool_iff. apply Qle_shift_div_l; [exact m_pos | ].
    rewrite Qmult_0_l. exact Hx. }
  rewrite H. reflexivity.
Qed.

(** For a total that is not negative [%] is the exact remainder. *)
Lemma float_mod_nonneg (x : Q) : 0 <= x -> float_mod x m == real_mod x m.
Proof.
  intros Hx. unfold float_mod. rewrite (fmod_nonneg x Hx).
  destruct (real_mod_range m m_pos x) as [H0 H1].
  destruct (Qeq_bool (real_mod x m) 0) eqn:E.
  - apply Qeq_bool_iff in E. symmetry. exact E.
  - rewrite m_nonneg_bool.
    assert (H : Qle_bool 0 (real_mod x m) = true) by (apply Qle_bool_iff; exact H0).
    rewrite H. reflexivity.
Qed.

Lemma fmod_negative (x : Q) :
  x < 0 ->
  - m < fmod x m /\ fmod x m <= 0 /\
  fmod x m == x - m * inject_Z (Qceiling (x / m)).
Proof.
  intros Hx. unfold fmod, Qtruncate.
  assert (Hneg : x / m < 0).
  { apply Qlt_shift_div_r; [exact m_pos | ]. rewrite Qmult_0_l. exact Hx. }
  assert (H : Qle_bool 0 (x / m) = false).
  { destruct (Qle_bool 0 (x / m)) eqn:E; [ | reflexivity].
    apply Qle_bool_iff in E. exfalso. apply (Qlt_not_le _ _ Hneg E). }
  rewrite H.
  pose proof (Qle_ceiling (x / m)) as Hhi. pose proof (Qceiling_lt (x / m)) as Hlo.
  unfold Z.sub in Hlo. rewrite inject_Z_plus in Hlo.
  change (inject_Z (-1)) with (-(1)) in Hlo.
  set (c := inject_Z (Qceiling (x / m))) in *.
  assert (Ex : x == m * (x / m)) by (field; apply pos_nonzero; exact m_pos).
  assert (H1 : m * (x / m) <= m * c) by (apply Qmult_le_l; assumption).
  assert (H2 : m * (c + - (1)) < m * (x / m)) by (apply Qmult_lt_l; assumption).
  rewrite <- Ex in H1, H2.
  assert (E2 : m * (c + - (1)) == m * c - m) by ring. rewrite E2 in H2.
  set (p := m * c) in *. clearbody p c.
  split; [lra | split; [lra | reflexivity]].
Qed.

(** For a negative total on a grid that still holds the divisor, the
    sum Python forms is representable, and [%] is the exact remainder
    again. *)
Lemma float_mod_negative (x : Q) (g : Z) :
  x < 0 -> (-1074 <= g)%Z -> on_grid g x -> on_grid g m -> m <= pow2 (g + 53) ->
  float_mod x m == real_mod x m.
Proof.
  intros Hx Hg Gx Gm Hm.
  destruct (fmod_negative x Hx) as (Hlo & Hhi & Ef).
  apply (is_mod_unique m m_pos x); [ | apply (real_mod_is_mod m m_pos x x); reflexivity].
  unfold float_mod.
  destruct (Qeq_bool (fmod x m) 0) eqn:E.
  - apply Qeq_bool_iff in E.
    split; [lra | split; [exact m_pos | ]].
    exists (Qceiling (x / m)). rewrite E in Ef.
    set (c := inject_Z (Qceiling (x / m))) in *. clearbody c.
    assert (E3 : c * m + 0 == m * c) by ring. rewrite E3.
    set (p := m * c) in *. clearbody p. lra.
  - assert (Hnz : ~ fmod x m == 0).
    { intros H0. apply Qeq_bool_iff in H0. congruence. }
    assert (Hneg : fmod x m < 0).
    { apply Qnot_le_lt. intros H0. apply Hnz. apply Qle_antisym; assumption. }
    assert (Hb : Qle_bool 0 (fmod x m) = false).
    { destruct (Qle_bool 0 (fmod x m)) eqn:Eb; [ | reflexivity].
      apply Qle_bool_iff in Eb. exfalso. apply (Qlt_not_le _ _ Hneg Eb). }
    rewrite m_nonneg_bool, Hb. cbn [negb xorb].
    assert (Gs : on_grid g (fmod x m + m)).
    { apply on_grid_plus; [ | exact Gm].
      apply (on_grid_comp g (x + inject_Z (- Qceiling (x / m)) * m)).
      - rewrite Ef, inject_Z_opp. ring.
      - apply on_grid_plus; [exact Gx | apply on_grid_mult_Z; exact Gm]. }
    assert (Er : round64 (fmod x m + m) == fmod x m + m).
    { apply (round64_representable _ g Hg Gs).
      apply Qabs_Qlt_condition.
      set (r := fmod x m) in *. set (p := pow2 (g + 53)) in *. clearbody r p.
      split; lra. }
    set (r := fmod x m) in *. set (rr := round64 (r + m)) in *. clearbody rr.
    split; [lra | split; [lra | ]].
    exists (Qceiling (x / m) - 1)%Z. unfold Z.sub.
    rewrite inject_Z_plus. change (inject_Z (-1)) with (-(1)).
    set (c := inject_Z (Qceiling (x / m))) in *. clearbody c r.
    assert (E3 : (c + - (1)) * m + rr == m * c - m + rr) by ring. rewrite E3.
    set (p := m * c) in *. clearbody p. lra.
Qed.

(** Whatever the total, [%] by a positive divisor is not negative. *)
Lemma float_mod_not_negative (x : Q) : 0 <= float_mod x m.
Proof.
  destruct (Qlt_le_dec x 0) as [Hneg | Hpos].
  - destruct (fmod_negative x Hneg) as (Hlo & Hhi & _).
    unfold float_mod.
    destruct (Qeq_bool (fmod x m) 0); [apply Qle_refl | ].
    destruct (xorb (negb (Qle_bool 0 m)) (negb (Qle_bool 0 (fmod x m)))) eqn:Ex.
    + apply round64_nonneg. set (r := fmod x m) in *. clearbody r. lra.
    + rewrite m_nonneg_bool in Ex. cbn [negb xorb] in Ex.
      destruct (Qle_bool 0 (fmod x m)) eqn:Eb; [ | discriminate Ex].
      apply Qle_bool_iff. exact Eb.
  - rewrite (float_mod_nonneg x Hpos). apply (real_mod_range m m_pos x).
Qed.

End PythonMod.

(** Where the two remainders that [break_total] takes of the total are
    exact, its reading is the decomposition of the real total. *)
Lemma Q43200_pos : 0 < 43200. Proof. reflexivity. Qed.
Lemma Q3600_pos : 0 < 3600. Proof. reflexivity. Qed.
Lemma Q60_pos : 0 < 60. Proof. reflexivity. Qed.

Lemma break_total_exact (total : Q) :
  float_mod total 43200 == real_mod total 43200 ->
  float_mod total 3600 == real_mod total 3600 ->
  fst (fst (break_total total)) = fst (fst (real_break total)) /\
  snd (fst (break_total total)) = snd (fst (real_break total)) /\
  snd (break_total total) == snd (real_break total).
Proof.
  intros E12 Er. unfold break_total, real_break. cbn [fst snd].
  split; [apply float_floordiv_comp; exact E12 | ].
  split; [apply float_floordiv_comp; exact Er | ].
  rewrite (float_mod_comp _ _ 60 Er).
  apply (float_mod_nonneg 60 Q60_pos).
  apply (real_mod_range 3600 Q3600_pos).
Qed.

Lemma mods_exact_nonneg (total : Q) :
  0 <= total ->
  float_mod total 43200 == real_mod total 43200 /\
  float_mod total 3600 == real_mod total 3600.
Proof.
  intros H. split.
  - apply (float_mod_nonneg 43200 Q43200_pos). exact H.
  - apply (float_mod_nonneg 3600 Q3600_pos). exact H.
Qed.

Lemma pow2_16 : pow2 16 == 65536.
Proof. reflexivity. Qed.

Lemma mods_exact_on_grid (total : Q) (g : Z) :
  (-37 <= g <= 0)%Z -> on_grid g total ->
  float_mod total 43200 == real_mod total 43200 /\
  float_mod total 3600 == real_mod total 3600.
Proof.
  intros Hg G.
  destruct (Qlt_le_dec total 0) as [Hneg | Hpos]; [ | apply mods_exact_nonneg; exact Hpos].
  assert (Hp : pow2 16 <= pow2 (g + 53)) by (apply pow2_le; lia).
  rewrite pow2_16 in Hp.
  split.
  - apply (float_mod_negative 43200 Q43200_pos total g Hneg); [lia | exact G | | ].
    + change 43200 with (inject_Z 43200). apply on_grid_Z. lia.
    + set (p := pow2 (g + 53)) in *. clearbody p. lra.
  - apply (float_mod_negative 3600 Q3600_pos total g Hneg); [lia | exact G | | ].
    + change 3600 with (inject_Z 3600). apply on_grid_Z. lia.
    + set (p := pow2 (g + 53)) in *. clearbody p. lra.
Qed.

(* ================================================================== *)
(** ** Lines 228-229: the elapsed and the total seconds *)

Lemma inject_Z_nonzero (z : Z) : z <> 0%Z -> ~ inject_Z z == 0.
Proof.
  intros Hz E. apply Hz. apply inject_Z_injective. exact E.
Qed.

Lemma Ok_inj {A : Type} (a b : A) : Ok a = Ok b -> a = b.
Proof. intros H. injection H as H'. exact H'. Qed.

Lemma Qabs_inject_Z (z : Z) : Qabs (inject_Z z) = inject_Z (Z.abs z).
Proof. reflexivity. Qed.

Lemma Qle_bool_false (x y : Q) : Qle_bool x y = false <-> y < x.
Proof.
  split.
  - intros H. apply Qnot_le_lt. intros Hle. apply Qle_bool_iff in Hle. congruence.
  - intros H. destruct (Qle_bool x y) eqn:E; [ | reflexivity].
    apply Qle_bool_iff in E. exfalso. exact (Qlt_not_le _ _ H E).
Qed.

Lemma limit_above_2_53 : (2 ^ 53 < binary64_limit)%Z.
Proof. reflexivity. Qed.

Lemma max_below_limit : (binary64_max + 2 ^ 53 < binary64_limit)%Z.
Proof. reflexivity. Qed.

(** [frame / FPS] returns exactly when the divisor is not zero and the
    quotient is inside the range of binary64; it is then the quotient
    rounded. *)
Lemma true_divide_returns (a b : Z) :
  b <> 0%Z -> (Z.abs a < binary64_limit * Z.abs b)%Z ->
  true_divide a b = Ok (round64 (inject_Z a / inject_Z b)).
Proof.
  intros Hb Ha. unfold true_divide.
  destruct (Z.eqb_spec b 0) as [E | _]; [contradiction | ].
  destruct (Z.leb_spec (binary64_limit * Z.abs b) (Z.abs a)); [lia | reflexivity].
Qed.

Lemma true_divide_inv (a b : Z) (e : Q) :
  true_divide a b = Ok e ->
  b <> 0%Z /\ (Z.abs a < binary64_limit * Z.abs b)%Z /\
  e = round64 (inject_Z a / inject_Z b).
Proof.
  unfold true_divide.
  destruct (Z.eqb_spec b 0) as [E | Hb]; [discriminate | ].
  destruct (Z.leb_spec (binary64_limit * Z.abs b) (Z.abs a)); [discriminate | ].
  intros Hok. apply Ok_inj in Hok. split; [exact Hb | split; [assumption | ]].
  symmetry. exact Hok.
Qed.

Lemma true_divide_zero (a : Z) : true_divide a 0 = Raise ZeroDivisionError.
Proof. reflexivity. Qed.

Lemma true_divide_overflow (a b : Z) :
  b <> 0%Z -> (binary64_limit * Z.abs b <= Z.abs a)%Z ->
  true_divide a b = Raise OverflowError.
Proof.
  intros Hb Ha. unfold true_divide.
  destruct (Z.eqb_spec b 0) as [E | _]; [contradiction | ].
  destruct (Z.leb_spec (binary64_limit * Z.abs b) (Z.abs a)); [reflexivity | lia].
Qed.

Lemma quotient_abs (a b : Z) :
  b <> 0%Z -> Qabs (inject_Z a / inject_Z b) == inject_Z (Z.abs a) / inject_Z (Z.abs b).
Proof.
  intros Hb. unfold Qdiv. rewrite Qabs_Qmult, Qabs_Qinv, !Qabs_inject_Z. reflexivity.
Qed.

Lemma quotient_below (a b : Z) (n : Z) :
  b <> 0%Z -> (Z.abs a < n * Z.abs b)%Z ->
  Qabs (inject_Z a / inject_Z b) < inject_Z n.
Proof.
  intros Hb Ha. rewrite (quotient_abs a b Hb).
  apply Qlt_shift_div_r.
  - change 0 with (inject_Z 0). rewrite <- Zlt_Qlt. lia.
  - rewrite <- inject_Z_mult, <- Zlt_Qlt. exact Ha.
Qed.

Lemma quotient_nonneg (a b : Z) :
  (0 <= a)%Z -> (0 < b)%Z -> 0 <= inject_Z a / inject_Z b.
Proof.
  intros Ha Hb. apply Qle_shift_div_l.
  - change 0 with (inject_Z 0). rewrite <- Zlt_Qlt. exact Hb.
  - rewrite Qmult_0_l. change 0 with (inject_Z 0). rewrite <- Zle_Qle. exact Ha.
Qed.

Lemma quotient_nonpos (a b : Z) :
  (a <= 0)%Z -> (0 < b)%Z -> inject_Z a / inject_Z b <= 0.
Proof.
  intros Ha Hb. apply Qle_shift_div_r.
  - change 0 with (inject_Z 0). rewrite <- Zlt_Qlt. exact Hb.
  - rewrite Qmult_0_l. change 0 with (inject_Z 0). rewrite <- Zle_Qle. exact Ha.
Qed.

(** An [int] below [2 ^ 53] in size converts to the same number. *)
Lemma int_to_float_small (z : Z) :
  (Z.abs z < 2 ^ 53)%Z ->
  int_to_float z = Ok (round64 (inject_Z z)) /\ round64 (inject_Z z) == inject_Z z.
Proof.
  intros Hz. unfold int_to_float. pose proof limit_above_2_53 as Hl.
  destruct (Z.leb_spec binary64_limit (Z.abs z)); [lia | ].
  split; [reflexivity | apply round64_Z; exact Hz].
Qed.

Lemma int_to_float_inv (z : Z) (s : Q) :
  int_to_float z = Ok s ->
  (Z.abs z < binary64_limit)%Z /\ s = round64 (inject_Z z).
Proof.
  unfold int_to_float.
  destruct (Z.leb_spec binary64_limit (Z.abs z)); [discriminate | ].
  intros Hok. apply Ok_inj in Hok. split; [assumption | symmetry; exact Hok].
Qed.

Lemma float_add_inv (x y t : Q) :
  float_add x y = Ok t ->
  Qabs (x + y) < inject_Z binary64_limit /\ t = round64 (x + y).
Proof.
  unfold float_add.
  destruct (Qle_bool (inject_Z binary64_limit) (Qabs (x + y))) eqn:E; [discriminate | ].
  intros Hok. apply Ok_inj in Hok. split; [ | symmetry; exact Hok].
  apply Qle_bool_false. exact E.
Qed.

Lemma float_add_returns (x y : Q) :
  Qabs (x + y) < inject_Z binary64_limit -> float_add x y = Ok (round64 (x + y)).
Proof.
  intros H. unfold float_add.
  apply Qle_bool_false in H. rewrite H. reflexivity.
Qed.

(** What lines 228-229 compute when they return. *)
Lemma float_total_inv (cfg : Config) (f : Z) (total : Q) :
  float_total cfg f = Ok total ->
  exists elapsed start : Q,
    true_divide f (FPS cfg) = Ok elapsed /\
    elapsed = round64 (inject_Z f / inject_Z (FPS cfg)) /\
    int_to_float (start_seconds cfg) = Ok start /\
    start = round64 (inject_Z (start_seconds cfg)) /\
    float_add start elapsed = Ok total /\
    total = round64 (start + elapsed).
Proof.
  unfold float_total, total_seconds_of. intros H.
  destruct (true_divide f (FPS cfg)) as [e | x | ] eqn:Ed; try discriminate H.
  cbn [bind] in H.
  destruct (int_to_float (start_seconds cfg)) as [s | x | ] eqn:Es; try discriminate H.
  cbn [bind] in H.
  exists e, s.
  destruct (true_divide_inv _ _ _ Ed) as (_ & _ & Ee).
  destruct (int_to_float_inv _ _ Es) as (_ & Ess).
  destruct (float_add_inv _ _ _ H) as (_ & Et).
  repeat (split; [first [reflexivity | assumption] | ]). exact Et.
Qed.

(** They return for a non-zero frame rate, a start time below
    [2 ^ 53] seconds and a quotient inside the binary64 range. *)
Lemma float_total_returns (cfg : Config) (f : Z) :
  FPS cfg <> 0%Z ->
  (Z.abs f < binary64_limit * Z.abs (FPS cfg))%Z ->
  (Z.abs (start_seconds cfg) < 2 ^ 53)%Z ->
  float_total cfg f =
  Ok (round64 (inject_Z (start_seconds cfg)
               + round64 (inject_Z f / inject_Z (FPS cfg)))).
Proof.
  intros Hfps Hf Hs. unfold float_total, total_seconds_of.
  rewrite (true_divide_returns _ _ Hfps Hf). cbn [bind].
  destruct (int_to_float_small _ Hs) as [Ei Es]. rewrite Ei. cbn [bind].
  set (e := round64 (inject_Z f / inject_Z (FPS cfg))).
  set (s := round64 (inject_Z (start_seconds cfg))) in *.
  assert (He : - inject_Z binary64_max <= e /\ e <= inject_Z binary64_max).
  { apply round64_below_limit. apply quotient_below; assumption. }
  assert (Hsz : - inject_Z (2 ^ 53) < s /\ s < inject_Z (2 ^ 53)).
  { rewrite Es. rewrite <- inject_Z_opp, <- !Zlt_Qlt. lia. }
  assert (Hl : inject_Z binary64_max + inject_Z (2 ^ 53) < inject_Z binary64_limit).
  { rewrite <- inject_Z_plus, <- Zlt_Qlt. exact max_below_limit. }
  rewrite float_add_returns.
  - f_equal. apply round64_comp. rewrite Es. reflexivity.
  - apply Qabs_Qlt_condition.
    set (M := inject_Z binary64_max) in *. set (L := inject_Z binary64_limit) in *.
    set (P := inject_Z (2 ^ 53)) in *. clearbody M L P e s.
    split; lra.
Qed.

(** The sign of the total. *)
Lemma float_total_nonneg (cfg : Config) (f : Z) (total : Q) :
  (0 < FPS cfg)%Z -> (0 <= start_seconds cfg)%Z -> (0 <= f)%Z ->
  float_total cfg f = Ok total -> 0 <= total.
Proof.
  intros Hfps Hs Hf Ht.
  destruct (float_total_inv _ _ _ Ht) as (e & s & _ & Ee & _ & Es & _ & Et).
  subst total. apply round64_nonneg.
  assert (H1 : 0 <= e) by (subst e; apply round64_nonneg, quotient_nonneg; assumption).
  assert (H2 : 0 <= s).
  { subst s. apply round64_nonneg. change 0 with (inject_Z 0).
    rewrite <- Zle_Qle. exact Hs. }
  lra.
Qed.

(** A negative total of a start time of at least [2 ^ 15] seconds lies
    on the grid of [2 ^ -37]: the elapsed time is then below [-2 ^ 15],
    so it is a multiple of [2 ^ -37] itself, and so is the sum. *)
Lemma float_total_negative_grid (cfg : Config) (f : Z) (total : Q) :
  (32768 <= start_seconds cfg < 2 ^ 53)%Z ->
  float_total cfg f = Ok total -> total < 0 -> on_grid (-37) total.
Proof.
  intros [Hs1 Hs2] Ht Hneg.
  destruct (float_total_inv _ _ _ Ht) as (e & s & _ & Ee & _ & Es & _ & Et).
  assert (Ess : s == inject_Z (start_seconds cfg)).
  { subst s. apply round64_Z. lia. }
  assert (Hs : 32768 <= s).
  { rewrite Ess. change 32768 with (inject_Z 32768). rewrite <- Zle_Qle. exact Hs1. }
  assert (Hsum : s + e < 0).
  { apply Qnot_le_lt. intros H0. apply (round64_nonneg (s + e)) in H0.
    rewrite <- Et in H0. exact (Qlt_not_le _ _ Hneg H0). }
  set (q := inject_Z f / inject_Z (FPS cfg)) in *.
  assert (Hq : q <= - (32768)).
  { apply Qnot_lt_le. intros Hq.
    assert (Hq0 : q < 0).
    { apply Qnot_le_lt. intros H0. apply (round64_nonneg q) in H0.
      rewrite <- Ee in H0. lra. }
    assert (Hg : (grid_exponent q <= -38)%Z).
    { apply grid_exponent_le; [lia | ].
      apply Qabs_Qlt_condition. change (pow2 (-38 + 53)) with (pow2 15).
      assert (E15 : pow2 15 == 32768) by reflexivity.
      rewrite E15. split; lra. }
    assert (Hb : - (32768) <= round64 q).
    { apply round64_ge_grid; [ | apply Qlt_le_weak; exact Hq].
      change (- (32768)) with (inject_Z (-32768)). apply on_grid_Z. lia. }
    rewrite <- Ee in Hb. lra. }
  assert (Hge : (-37 <= grid_exponent q)%Z).
  { apply grid_exponent_ge. change (pow2 (-37 + 52)) with (pow2 15).
    assert (E15 : pow2 15 == 32768) by reflexivity.
    rewrite E15. rewrite Qabs_neg by lra. lra. }
  assert (Ge : on_grid (-37) e).
  { apply (on_grid_coarser (-37) (grid_exponent q)); [exact Hge | ].
    subst e. apply round64_grid. }
  assert (Gs : on_grid (-37) s).
  { apply (on_grid_comp (-37) (inject_Z (start_seconds cfg))).
    - symmetry. exact Ess.
    - apply on_grid_Z. lia. }
  assert (Gsum : on_grid (-37) (s + e)) by (apply on_grid_plus; assumption).
  subst total.
  destruct (Z_le_gt_dec (-37) (grid_exponent (s + e))) as [Hc | Hf].
  - apply (on_grid_coarser (-37) (grid_exponent (s + e))); [exact Hc | ].
    apply round64_grid.
  - apply (on_grid_comp (-37) (s + e)); [ | exact Gsum].
    symmetry. apply (round64_exact (s + e) (-37)); [exact Gsum | lia].
Qed.

(** Where the remainders of a frame's total are exact. *)
Lemma float_total_remainders_exact (cfg : Config) (f : Z) (total : Q) :
  float_total cfg f = Ok total ->
  0 <= total \/ (32768 <= start_seconds cfg < 2 ^ 53)%Z ->
  remainders_exact total.
Proof.
  intros Ht [Hpos | Hs].
  - apply mods_exact_nonneg. exact Hpos.
  - destruct (Qlt_le_dec total 0) as [Hneg | Hpos].
    + apply (mods_exact_on_grid total (-37)); [lia | ].
      apply (float_total_negative_grid cfg f); assumption.
    + apply mods_exact_nonneg. exact Hpos.
Qed.

(** A whole number of seconds is exact as well. *)
Lemma whole_total_remainders_exact (total : Q) (n : Z) :
  total == inject_Z n -> remainders_exact total.
Proof.
  intros E. apply (mods_exact_on_grid total 0); [lia | ].
  apply (on_grid_comp 0 (inject_Z n)); [symmetry; exact E | ].
  apply on_grid_Z. lia.
Qed.

(* ================================================================== *)
(** ** The decomposition of a real total *)

Lemma real_break_in_range (total : Q) : in_range (real_break total).
Proof.
  unfold in_range, real_break.
  destruct (real_mod_range 43200 Q43200_pos total) as [Ha Hb].
  destruct (real_mod_range 3600 Q3600_pos total) as [Hc Hd].
  repeat split.
  - apply (float_floordiv_range 3600 Q3600_pos _ 12); assumption.
  - apply (float_floordiv_range 3600 Q3600_pos _ 12); assumption.
  - apply (float_floordiv_range 60 Q60_pos _ 60); assumption.
  - apply (float_floordiv_range 60 Q60_pos _ 60); assumption.
  - apply (real_mod_range 60 Q60_pos).
  - apply (real_mod_range 60 Q60_pos).
Qed.

Lemma real_mod_nested (total : Q) :
  real_mod (real_mod total 43200) 3600 == real_mod total 3600.
Proof.
  rewrite <- (real_mod_period total 3600 (- (12 * Qfloor (total / 43200))) Q3600_pos).
  apply real_mod_comp. unfold real_mod.
  rewrite inject_Z_opp, inject_Z_mult. change (inject_Z 12) with 12. ring.
Qed.

Lemma real_break_recomposes (total : Q) :
  let '(h, m, s) := real_break total in
  h * 3600 + m * 60 + s == real_mod total 43200.
Proof.
  unfold real_break.
  pose proof (float_divmod 3600 (real_mod total 43200)) as E1.
  pose proof (float_divmod 60 (real_mod total 3600)) as E2.
  pose proof (real_mod_nested total) as E3.
  set (t12 := real_mod total 43200) in *.
  set (rem := real_mod total 3600) in *.
  set (h := float_floordiv t12 3600) in *.
  set (m := float_floordiv rem 60) in *.
  set (s := real_mod rem 60) in *.
  rewrite E3 in E1. clearbody h m s rem t12. lra.
Qed.


(** Hour and minute of a reading are whole numbers. *)
Lemma break_total_whole (total : Q) :
  exists hz mz : Z,
    fst (fst (break_total total)) = inject_Z hz /\
    snd (fst (break_total total)) = inject_Z mz.
Proof.
  unfold break_total, float_floordiv. cbn [fst snd].
  eexists. eexists. split; reflexivity.
Qed.

(** Where the remainders are exact, [break_total] reads the
    decomposition of the real total. *)
Lemma break_total_reads (total : Q) :
  remainders_exact total ->
  exists h m s s' : Q,
    break_total total = (h, m, s) /\ real_break total = (h, m, s') /\ s == s'.
Proof.
  intros [E12 Er].
  destruct (break_total_exact total E12 Er) as (Eh & Em & Es).
  destruct (break_total total) as [[h m] s].
  destruct (real_break total) as [[h' m'] s'].
  cbn [fst snd] in Eh, Em, Es. subst h' m'.
  exists h, m, s, s'. split; [reflexivity | split; [reflexivity | exact Es]].
Qed.

Lemma break_total_in_range (total : Q) :
  remainders_exact total -> in_range (break_total total).
Proof.
  intros Hx. destruct (break_total_reads total Hx) as (h & m & s & s' & Eb & Er & Es).
  pose proof (real_break_in_range total) as Hr. rewrite Er in Hr. rewrite Eb.
  unfold in_range in *. rewrite Es. exact Hr.
Qed.



Lemma break_total_recomposes (total : Q) :
  remainders_exact total ->
  let '(h, m, s) := break_total total in
  h * 3600 + m * 60 + s == real_mod total 43200.
Proof.
  intros Hx. destruct (break_total_reads total Hx) as (h & m & s & s' & Eb & Er & Es).
  pose proof (real_break_recomposes total) as Hr. rewrite Er in Hr. rewrite Eb.
  rewrite Es. exact Hr.
Qed.

(* ================================================================== *)
(** ** How far binary64 moves the total and its remainders *)

(** [%] of a negative total is the exact remainder rounded once. *)
Lemma float_mod_round (x m : Q) :
  0 < m -> x < 0 -> float_mod x m == round64 (real_mod x m).
Proof.
  intros Hm Hx.
  destruct (fmod_negative m Hm x Hx) as (Hlo & Hhi & Ef).
  pose proof (real_mod_is_mod m Hm x x (Qeq_refl x)) as Hreal.
  unfold float_mod.
  destruct (Qeq_bool (fmod x m) 0) eqn:E.
  - apply Qeq_bool_iff in E.
    assert (E0 : real_mod x m == 0).
    { apply (is_mod_unique m Hm x); [exact Hreal | ].
      split; [lra | split; [exact Hm | ]].
      exists (Qceiling (x / m)). rewrite E in Ef.
      set (c := inject_Z (Qceiling (x / m))) in *. clearbody c.
      assert (E3 : c * m + 0 == m * c) by ring. rewrite E3.
      set (p := m * c) in *. clearbody p. lra. }
    rewrite (round64_comp _ _ E0). symmetry.
    apply (round64_Z 0). reflexivity.
  - assert (Hnz : ~ fmod x m == 0).
    { intros H0. apply Qeq_bool_iff in H0. congruence. }
    assert (Hneg : fmod x m < 0).
    { apply Qnot_le_lt. intros H0. apply Hnz. apply Qle_antisym; assumption. }
    assert (Hb : Qle_bool 0 (fmod x m) = false) by (apply Qle_bool_false; exact Hneg).
    rewrite (m_nonneg_bool m Hm), Hb. cbn [negb xorb].
    assert (E1 : real_mod x m == fmod x m + m).
    { apply (is_mod_unique m Hm x); [exact Hreal | ].
      set (r := fmod x m) in *.
      split; [lra | split; [lra | ]].
      exists (Qceiling (x / m) - 1)%Z. unfold Z.sub.
      rewrite inject_Z_plus. change (inject_Z (-1)) with (-(1)).
      set (c := inject_Z (Qceiling (x / m))) in *. clearbody c r.
      assert (E3 : (c + - (1)) * m + (r + m) == m * c + r) by ring. rewrite E3.
      set (p := m * c) in *. clearbody p. lra. }
    rewrite (round64_comp _ _ E1). reflexivity.
Qed.

(** So [% 3600] is within [2 ^ -42] of the exact remainder. *)
Lemma float_mod_3600_close (x : Q) :
  - pow2 (-42) <= float_mod x 3600 - real_mod x 3600 /\
  float_mod x 3600 - real_mod x 3600 <= pow2 (-42).
Proof.
  assert (Hp : 0 < pow2 (-42)) by apply pow2_pos.
  destruct (Qlt_le_dec x 0) as [Hneg | Hpos].
  - rewrite (float_mod_round x 3600 Q3600_pos Hneg).
    destruct (real_mod_range 3600 Q3600_pos x) as [H0 H1].
    assert (Hb : Qabs (real_mod x 3600) < pow2 (-41 + 53)).
    { rewrite Qabs_pos by exact H0. change (pow2 (-41 + 53)) with (pow2 12).
      assert (E12 : pow2 12 == 4096) by reflexivity. rewrite E12. lra. }
    assert (Hg : (-1074 <= -41)%Z) by lia.
    pose proof (round64_error (real_mod x 3600) (-41) Hg Hb) as [Hlo Hhi].
    assert (E : (1 # 2) * pow2 (-41) == pow2 (-42)) by reflexivity.
    rewrite E in Hlo, Hhi. split; assumption.
  - rewrite (float_mod_nonneg 3600 Q3600_pos x Hpos).
    set (r := real_mod x 3600). clearbody r. split; lra.
Qed.

(** The minute hand's angle only depends on the seconds into the hour
    that [% 3600] returns. *)
Lemma minute_angle_closed (total : Q) :
  minute_angle (hand_angles (break_total total)) == 90 - float_mod total 3600 / 10.
Proof.
  unfold minute_angle, hand_angles, break_total, minute_angle_of. cbn [fst snd].
  pose proof (float_mod_not_negative 3600 Q3600_pos total) as H0.
  set (rem := float_mod total 3600) in *.
  rewrite (float_mod_nonneg 60 Q60_pos rem H0).
  unfold real_mod, float_floordiv. field.
Qed.

Lemma spec_total_start (cfg : Config) (f : Z) :
  spec_total cfg f == inject_Z (start_seconds cfg) + inject_Z f / inject_Z (FPS cfg).
Proof.
  unfold spec_total, start_seconds. rewrite !inject_Z_plus, !inject_Z_mult. reflexivity.
Qed.

Lemma on_grid_pow2 (g n : Z) : (g <= n)%Z -> on_grid g (pow2 n).
Proof.
  intros H. exists (2 ^ (n - g))%Z.
  rewrite <- (pow2_Z (n - g)) by lia. rewrite <- pow2_add.
  replace (n - g + g)%Z with n by lia. reflexivity.
Qed.

(** With a start time and an elapsed time below [2 ^ n] seconds, the
    total of lines 228-229 is within [2 ^ (n - 52)] seconds of the sum
    of real numbers. *)
Lemma float_total_close (cfg : Config) (f n : Z) :
  (0 <= n <= 53)%Z ->
  FPS cfg <> 0%Z ->
  (Z.abs (start_seconds cfg) < 2 ^ n)%Z ->
  (Z.abs f < 2 ^ n * Z.abs (FPS cfg))%Z ->
  exists total : Q,
    float_total cfg f = Ok total /\
    - pow2 (n - 52) <= total - spec_total cfg f /\
    total - spec_total cfg f <= pow2 (n - 52).
Proof.
  intros Hn Hfps Hs Hf.
  assert (Hpow : (2 ^ n <= 2 ^ 53)%Z) by (apply Z.pow_le_mono_r; lia).
  pose proof limit_above_2_53 as Hl.
  assert (Hf' : (Z.abs f < binary64_limit * Z.abs (FPS cfg))%Z) by nia.
  assert (Hs' : (Z.abs (start_seconds cfg) < 2 ^ 53)%Z) by lia.
  rewrite (float_total_returns cfg f Hfps Hf' Hs').
  eexists. split; [reflexivity | ].
  rewrite spec_total_start.
  set (q := inject_Z f / inject_Z (FPS cfg)).
  set (s := inject_Z (start_seconds cfg)).
  assert (Hq : Qabs q < pow2 n).
  { rewrite (pow2_Z n) by lia. apply quotient_below; assumption. }
  assert (Hsq : Qabs s < pow2 n).
  { rewrite (pow2_Z n) by lia. unfold s. rewrite Qabs_inject_Z, <- Zlt_Qlt. exact Hs. }
  assert (Hg1 : (-1074 <= n - 53)%Z) by lia.
  assert (Hq1 : Qabs q < pow2 (n - 53 + 53)).
  { replace (n - 53 + 53)%Z with n by lia. exact Hq. }
  pose proof (round64_error q (n - 53) Hg1 Hq1) as [Helo Hehi].
  set (e := round64 q) in *.
  assert (Hgq : (grid_exponent q <= n - 53)%Z) by (apply grid_exponent_le; assumption).
  assert (Hgn : on_grid (grid_exponent q) (pow2 n)) by (apply on_grid_pow2; lia).
  assert (He1 : e <= pow2 n).
  { apply round64_le_grid; [exact Hgn | ].
    apply Qabs_Qlt_condition in Hq. apply Qlt_le_weak. apply Hq. }
  assert (He2 : - pow2 n <= e).
  { apply round64_ge_grid.
    - destruct Hgn as [k Ek]. exists (- k)%Z. rewrite inject_Z_opp, Ek. ring.
    - apply Qabs_Qlt_condition in Hq. apply Qlt_le_weak. apply Hq. }
  assert (Hsum : Qabs (s + e) < pow2 (n - 52 + 53)).
  { replace (n - 52 + 53)%Z with (n + 1)%Z by lia. rewrite pow2_add.
    assert (E2 : pow2 1 == 2) by reflexivity. rewrite E2.
    apply Qabs_Qlt_condition in Hsq. apply Qabs_Qlt_condition.
    set (p := pow2 n) in *. clearbody p s e. split; lra. }
  assert (Hg2 : (-1074 <= n - 52)%Z) by lia.
  pose proof (round64_error (s + e) (n - 52) Hg2 Hsum) as [Htlo Hthi].
  assert (Ehalf : (1 # 2) * pow2 (n - 52) == pow2 (n - 53)).
  { replace (n - 52)%Z with (n - 53 + 1)%Z by lia. rewrite pow2_add.
    assert (E2 : pow2 1 == 2) by reflexivity. rewrite E2. field. }
  assert (Efull : pow2 (n - 52) == 2 * pow2 (n - 53)).
  { rewrite <- Ehalf. field. }
  rewrite Ehalf in Htlo, Hthi. rewrite Efull.
  pose proof (pow2_pos (n - 53)) as Hpos.
  set (t := round64 (s + e)) in *. set (u := pow2 (n - 53)) in *.
  clearbody t u e s q. split; lra.
Qed.

(* ================================================================== *)
(** ** Part D: the fading text *)

Lemma int_truediv_ok (a b : Z) :
  b <> 0%Z -> int_truediv a b = Ok (inject_Z a / inject_Z b).
Proof.
  intros Hb. unfold int_truediv.
  destruct (Z.eqb_spec b 0) as [E | _]; [contradiction | reflexivity].
Qed.

Lemma int_truediv_zero (a : Z) : int_truediv a 0 = Raise ZeroDivisionError.
Proof. reflexivity. Qed.

Lemma fade_window (cfg : Config) :
  (fade_end_frame cfg - fade_start_frame cfg = 2 * FPS cfg)%Z.
Proof. unfold fade_start_frame, fade_end_frame. lia. Qed.

Lemma text_fade_before (cfg : Config) (f : Z) :
  (f < fade_start_frame cfg)%Z -> text_fade cfg f = Ok (0, -1).
Proof.
  intros H. unfold text_fade.
  destruct (Z.ltb_spec f (fade_start_frame cfg)); [reflexivity | lia].
Qed.

Lemma text_fade_during (cfg : Config) (f : Z) :
  FPS cfg <> 0%Z ->
  (fade_start_frame cfg <= f <= fade_end_frame cfg)%Z ->
  text_fade cfg f =
  Ok (inject_Z (f - fade_start_frame cfg)
      / inject_Z (fade_end_frame cfg - fade_start_frame cfg),
      -1 + (1 # 2) * (inject_Z (f - fade_start_frame cfg)
                      / inject_Z (fade_end_frame cfg - fade_start_frame cfg))).
Proof.
  intros Hfps [Hlo Hhi]. unfold text_fade.
  destruct (Z.ltb_spec f (fade_start_frame cfg)); [lia | ].
  destruct (Z.leb_spec f (fade_end_frame cfg)); [ | lia].
  rewrite int_truediv_ok; [reflexivity | ].
  rewrite fade_window. lia.
Qed.

Lemma text_fade_after (cfg : Config) (f : Z) :
  (fade_start_frame cfg <= f)%Z -> (fade_end_frame cfg < f)%Z ->
  text_fade cfg f = Ok (1, -(1 # 2)).
Proof.
  intros Hlo Hhi. unfold text_fade.
  destruct (Z.ltb_spec f (fade_start_frame cfg)); [lia | ].
  destruct (Z.leb_spec f (fade_end_frame cfg)); [lia | reflexivity].
Qed.

Lemma text_fade_total (cfg : Config) (f : Z) :
  FPS cfg <> 0%Z -> exists ay : Q * Q, text_fade cfg f = Ok ay.
Proof.
  intros Hfps.
  destruct (Z_lt_le_dec f (fade_start_frame cfg)) as [Hb | Hlo].
  - eexists. apply text_fade_before. exact Hb.
  - destruct (Z_le_gt_dec f (fade_end_frame cfg)) as [Hhi | Ha].
    + eexists. apply text_fade_during; [exact Hfps | split; assumption].
    + eexists. apply text_fade_after; [exact Hlo | lia].
Qed.

(* ================================================================== *)
(** ** The whole of [update_frame] *)

Lemma clock_time_inv (cfg : Config) (f : Z) (hms : Q * Q * Q) :
  clock_time cfg f = Ok hms ->
  exists total : Q, float_total cfg f = Ok total /\ hms = break_total total.
Proof.
  unfold clock_time. intros H.
  destruct (float_total cfg f) as [total | x | ]; try discriminate H.
  cbn [bind] in H. apply Ok_inj in H. exists total. split; [reflexivity | ].
  symmetry. exact H.
Qed.

Lemma clock_time_of_total (cfg : Config) (f : Z) (total : Q) :
  float_total cfg f = Ok total -> clock_time cfg f = Ok (break_total total).
Proof. intros H. unfold clock_time. rewrite H. reflexivity. Qed.

Lemma clock_time_nonzero_fps (cfg : Config) (f : Z) (hms : Q * Q * Q) :
  clock_time cfg f = Ok hms -> FPS cfg <> 0%Z.
Proof.
  intros H. destruct (clock_time_inv _ _ _ H) as (total & Ht & _).
  destruct (float_total_inv _ _ _ Ht) as (e & s & Hd & _).
  apply (true_divide_inv _ _ _ Hd).
Qed.

Lemma update_frame_drawn (cfg : Config) (f : Z) (a : Artists)
    (hms : Q * Q * Q) (ay : Q * Q) :
  clock_time cfg f = Ok hms ->
  text_fade cfg f = Ok ay ->
  update_frame cfg f a = Ok (drawn cfg hms ay).
Proof.
  intros Hc Ht. unfold update_frame, drawn. rewrite Hc. simpl.
  destruct (hand_angles hms) as [[ha ma] sa]. rewrite Ht. reflexivity.
Qed.

(** The hand lines are written before the fade step runs, but the fade
    step cannot raise once the clock reading was computed: its division
    fails for a zero frame rate only, and then line 228 has raised
    already.  So [update_frame] never leaves the artists half updated. *)
Lemma no_partial_update (cfg : Config) (f : Z) (hms : Q * Q * Q) :
  clock_time cfg f = Ok hms -> exists ay : Q * Q, text_fade cfg f = Ok ay.
Proof.
  intros Hc. apply text_fade_total. exact (clock_time_nonzero_fps _ _ _ Hc).
Qed.

Lemma update_frame_returns (cfg : Config) (f : Z) (a : Artists) (hms : Q * Q * Q) :
  clock_time cfg f = Ok hms ->
  exists ay : Q * Q,
    text_fade cfg f = Ok ay /\ update_frame cfg f a = Ok (drawn cfg hms ay).
Proof.
  intros Hc. destruct (no_partial_update _ _ _ Hc) as [ay Hay].
  exists ay. split; [exact Hay | apply update_frame_drawn; assumption].
Qed.

(** What [update_frame] raises is what its clock reading raises. *)
Lemma update_frame_raises (cfg : Config) (f : Z) (a : Artists) (e : exn) :
  clock_time cfg f = Raise e -> update_frame cfg f a = Raise e.
Proof. intros H. unfold update_frame. rewrite H. reflexivity. Qed.

(** With a zero frame rate the first division of [update_frame] raises. *)
Lemma update_frame_zero_fps (cfg : Config) (f : Z) (a : Artists) :
  FPS cfg = 0%Z -> update_frame cfg f a = Raise ZeroDivisionError.
Proof.
  intros Hfps. unfold update_frame, clock_time, float_total. rewrite Hfps. reflexivity.
Qed.

(** The reading of a frame in the range of binary64 whose remainders
    are exact: of a frame that is not negative, or of any frame when the
    clock starts at [2 ^ 15] seconds or later. *)
Lemma clock_time_in_scope (cfg : Config) (f : Z) :
  (0 < FPS cfg)%Z ->
  (0 <= start_seconds cfg < 2 ^ 53)%Z ->
  (Z.abs f < binary64_limit * FPS cfg)%Z ->
  (0 <= f \/ 32768 <= start_seconds cfg)%Z ->
  exists total : Q,
    float_total cfg f = Ok total /\
    clock_time cfg f = Ok (break_total total) /\
    remainders_exact total.
Proof.
  intros Hfps Hs Hf Hscope.
  assert (Hnz : FPS cfg <> 0%Z) by lia.
  assert (Hf' : (Z.abs f < binary64_limit * Z.abs (FPS cfg))%Z) by lia.
  assert (Hs' : (Z.abs (start_seconds cfg) < 2 ^ 53)%Z) by lia.
  pose proof (float_total_returns cfg f Hnz Hf' Hs') as Ht.
  eexists. split; [exact Ht | split; [apply clock_time_of_total; exact Ht | ]].
  apply (float_total_remainders_exact cfg f _ Ht).
  destruct Hscope as [H0 | H15].
  - left. apply (float_total_nonneg cfg f); [exact Hfps | lia | exact H0 | exact Ht].
  - right. lia.
Qed.

(* ================================================================== *)
(** ** Part A: the clock reading *)



(** C3, as stated, fails: "no matter how large" does not hold.  With
    the script's constants the frame [24 * (2^1024 - 2^970)] has no
    clock reading, because [frame / FPS] of line 228 raises
    OverflowError; the frame before it is the last one that has. *)
Lemma huge_frame_has_no_reading :
  (0 <= 24 * binary64_limit)%Z /\
  clock_time script_config (24 * binary64_limit) = Raise OverflowError /\
  (forall a : Artists,
      update_frame script_config (24 * binary64_limit) a = Raise OverflowError) /\
  reads (clock_time script_config (24 * binary64_limit - 1)) 2 26 8.
Proof.
  assert (Hc : clock_time script_config (24 * binary64_limit) = Raise OverflowError)
    by (vm_compute; reflexivity).
  split; [vm_compute; discriminate | split; [exact Hc | split]].
  - intros a. apply update_frame_raises. exact Hc.
  - vm_compute. repeat split; reflexivity.
Qed.

(** C3, amended.  For a positive frame rate and a start time from 0 to
    below [2 ^ 53] seconds, every frame index [f >= 0] whose elapsed
    time [f / FPS] is inside the range of binary64, that is
    [f < (2^1024 - 2^970) * FPS], has a clock reading, with hour in
    [[0,12)] and minute and second in [[0,60)]; hour and minute are
    whole numbers. *)
Theorem clock_reading_in_range (cfg : Config) (f : Z) :
  (0 < FPS cfg)%Z ->
  (0 <= start_seconds cfg < 2 ^ 53)%Z ->
  (0 <= f < binary64_limit * FPS cfg)%Z ->
  exists h m s : Q,
    clock_time cfg f = Ok (h, m, s) /\
    ((0 <= h /\ h < 12) /\ (0 <= m /\ m < 60) /\ (0 <= s /\ s < 60)) /\
    (exists hz mz : Z, h = inject_Z hz /\ m = inject_Z mz).
Proof.
  intros Hfps Hs Hf.
  destruct (clock_time_in_scope cfg f Hfps Hs) as (total & _ & Hc & Hx); [lia | lia | ].
  pose proof (break_total_in_range total Hx) as Hrange.
  pose proof (break_total_whole total) as Hwhole.
  destruct (break_total total) as [[h m] s].
  exists h, m, s. split; [exact Hc | split; [exact Hrange | exact Hwhole]].
Qed.

Lemma clock_reading_in_range_witness :
  exists h m s : Q,
    clock_time script_config (10 ^ 300) = Ok (h, m, s) /\
    ((0 <= h /\ h < 12) /\ (0 <= m /\ m < 60) /\ (0 <= s /\ s < 60)) /\
    (exists hz mz : Z, h = inject_Z hz /\ m = inject_Z mz).
Proof.
  apply (clock_reading_in_range script_config (10 ^ 300)); vm_compute;
    repeat split; discriminate.
Defined.

(** C10, as stated, fails: a negative frame can raise.  With the
    script's constants [frame / FPS] of line 228 raises OverflowError
    for the frame [-24 * (2^1024 - 2^970)].  And the reading of a
    negative total can leave the face: with a clock started at 0:00:00
    and [FPS = 10^20] the frame [-1] reads hour 12 and minute 60,
    because [%] of a float that small returns the divisor itself. *)
Lemma negative_frame_can_fail :
  (- (24 * binary64_limit) < 0)%Z /\
  (forall a : Artists,
      update_frame script_config (- (24 * binary64_limit)) a = Raise OverflowError) /\
  reads (clock_time (midnight_config (10 ^ 20)) (-1)) 12 60 0.
Proof.
  split; [vm_compute; reflexivity | split].
  - intros a. apply update_frame_raises. vm_compute. reflexivity.
  - vm_compute. repeat split; reflexivity.
Qed.

(** C10, amended.  For a positive frame rate and a start time from
    [2 ^ 15] to below [2 ^ 53] seconds (the script starts at 43830),
    every negative frame index [f] whose elapsed time is inside the
    range of binary64, [-f < (2^1024 - 2^970) * FPS], raises nothing:
    [update_frame] returns artists whose text is in the pre-fade state,
    alpha 0 and vertical position -1, and the clock reading is still on
    the 12-hour face, hour in [[0,12)], minute and second in [[0,60)];
    [%] by a positive divisor is never negative. *)
Theorem negative_frame_is_harmless (cfg : Config) (f : Z) (a : Artists) :
  (0 < FPS cfg)%Z ->
  (32768 <= start_seconds cfg < 2 ^ 53)%Z ->
  (f < 0)%Z ->
  (- f < binary64_limit * FPS cfg)%Z ->
  exists (a' : Artists) (h m s : Q),
    update_frame cfg f a = Ok a' /\
    alpha (birthday_text a') = 0 /\
    position (birthday_text a') = (0, -1) /\
    clock_time cfg f = Ok (h, m, s) /\
    ((0 <= h /\ h < 12) /\ (0 <= m /\ m < 60) /\ (0 <= s /\ s < 60)) /\
    (forall x m' : Q, 0 < m' -> 0 <= float_mod x m').
Proof.
  intros Hfps Hs Hf Hlim.
  assert (Hfade : text_fade cfg f = Ok (0, -1))
    by (apply text_fade_before; unfold fade_start_frame; lia).
  destruct (clock_time_in_scope cfg f Hfps) as (total & _ & Hc & Hx); [lia | lia | lia | ].
  pose proof (break_total_in_range total Hx) as Hrange.
  destruct (break_total total) as [[h m] s] eqn:Eb.
  exists (drawn cfg (h, m, s) (0, -1)), h, m, s.
  split; [apply update_frame_drawn; assumption | ].
  split; [reflexivity | split; [reflexivity | ]].
  split; [exact Hc | split; [exact Hrange | ]].
  intros x m' Hm'. apply float_mod_not_negative. exact Hm'.
Qed.

Lemma negative_frame_is_harmless_witness :
  exists (a' : Artists) (h m s : Q),
    update_frame script_config (-1051921) created_artists = Ok a' /\
    alpha (birthday_text a') = 0 /\
    position (birthday_text a') = (0, -1) /\
    clock_time script_config (-1051921) = Ok (h, m, s) /\
    ((0 <= h /\ h < 12) /\ (0 <= m /\ m < 60) /\ (0 <= s /\ s < 60)) /\
    (forall x m' : Q, 0 < m' -> 0 <= float_mod x m').
Proof.
  apply (negative_frame_is_harmless script_config (-1051921) created_artists);
    vm_compute; repeat split; discriminate.
Defined.

(* ================================================================== *)
(** ** Part B: the hand angles *)

(** C2.  For every frame index [f] that has a clock reading (lines
    228-235 return), [update_frame] returns, and the angles it draws
    the hands at are [hourAngle = 90 - (hour*30 + (minute/60)*30)],
    [minuteAngle = 90 - (minute*6 + (second/60)*6)] and
    [secondAngle = 90 - second*6] of that reading; at [f = 0] with the
    script's start time 12:10:30 the reading is hour 0, minute 10,
    second 30 and the angles are 85, 27 and -90 degrees. *)
Theorem hand_angle_formulas (cfg : Config) (f : Z) (a : Artists) (h m s : Q) :
  clock_time cfg f = Ok (h, m, s) ->
  (hand_angles (h, m, s) =
     (90 - (h * 30 + (m / 60) * 30),
      90 - (m * 6 + (s / 60) * 6),
      90 - (s * 6)) /\
   exists a' : Artists,
     update_frame cfg f a = Ok a' /\
     hour_line a' =
       hand_line (polar_to_cartesian (Q2R (HOUR_HAND_LENGTH cfg * R_DIAL cfg))
                    (Q2R (90 - (h * 30 + (m / 60) * 30))) (0, 0)%R) /\
     minute_line a' =
       hand_line (polar_to_cartesian (Q2R (MINUTE_HAND_LENGTH cfg * R_DIAL cfg))
                    (Q2R (90 - (m * 6 + (s / 60) * 6))) (0, 0)%R) /\
     second_line a' =
       hand_line (polar_to_cartesian (Q2R (SECOND_HAND_LENGTH cfg * R_DIAL cfg))
                    (Q2R (90 - (s * 6))) (0, 0)%R)) /\
  reads (clock_time script_config 0) 0 10 30 /\
  reads (hms <- clock_time script_config 0 ;; Ok (hand_angles hms)) 85 27 (-90).
Proof.
  intros Hc. split.
  - split; [reflexivity | ].
    destruct (update_frame_returns cfg f a (h, m, s) Hc) as (ay & _ & Hu).
    exists (drawn cfg (h, m, s) ay).
    split; [exact Hu | ].
    split; [reflexivity | split; reflexivity].
  - split; vm_compute; repeat split; reflexivity.
Qed.

Lemma hand_angle_formulas_witness :
  exists h m s : Q,
    clock_time script_config 239 = Ok (h, m, s) /\
    (hand_angles (h, m, s) =
       (90 - (h * 30 + (m / 60) * 30),
        90 - (m * 6 + (s / 60) * 6),
        90 - (s * 6)) /\
     exists a' : Artists,
       update_frame script_config 239 created_artists = Ok a' /\
       hour_line a' =
         hand_line (polar_to_cartesian
                      (Q2R (HOUR_HAND_LENGTH script_config * R_DIAL script_config))
                      (Q2R (90 - (h * 30 + (m / 60) * 30))) (0, 0)%R) /\
       minute_line a' =
         hand_line (polar_to_cartesian
                      (Q2R (MINUTE_HAND_LENGTH script_config * R_DIAL script_config))
                      (Q2R (90 - (m * 6 + (s / 60) * 6))) (0, 0)%R) /\
       second_line a' =
         hand_line (polar_to_cartesian
                      (Q2R (SECOND_HAND_LENGTH script_config * R_DIAL script_config))
                      (Q2R (90 - (s * 6))) (0, 0)%R)) /\
    reads (clock_time script_config 0) 0 10 30 /\
    reads (hms <- clock_time script_config 0 ;; Ok (hand_angles hms)) 85 27 (-90).
Proof.
  assert (Hc : exists hms, clock_time script_config 239 = Ok hms)
    by (eexists; vm_compute; reflexivity).
  destruct Hc as [[[h m] s] Hc].
  exists h, m, s. split; [exact Hc | ].
  apply (hand_angle_formulas script_config 239 created_artists h m s Hc).
Defined.

(* ================================================================== *)
(** ** Continuity of the minute hand *)

Lemma inv_whole_small (z : Z) : z <> 0%Z -> Qabs (/ inject_Z z) <= 1.
Proof.
  intros Hz. rewrite Qabs_Qinv.
  change (Qabs (inject_Z z)) with (inject_Z (Z.abs z)).
  assert (H1 : 1 <= inject_Z (Z.abs z)).
  { change 1 with (inject_Z 1). rewrite <- Zle_Qle. lia. }
  apply Qle_shift_inv_r; lra.
Qed.

Lemma next_frame_total (cfg : Config) (f : Z) :
  FPS cfg <> 0%Z ->
  spec_total cfg (f + 1) == spec_total cfg f + / inject_Z (FPS cfg).
Proof.
  intros Hfps. unfold spec_total. rewrite inject_Z_plus.
  change (inject_Z 1) with 1. field. apply inject_Z_nonzero. exact Hfps.
Qed.

(** C6, as stated, fails: between the frames [24 * 2^59 + 1536] and
    the next one the totals of the script are 128 seconds apart in
    binary64, the minute hand goes from 43.6 to 30.8 degrees, and that
    step of 12.8 degrees is more than 6 degrees whatever multiple of
    360 is taken off. *)
Lemma minute_hand_jumps :
  exists hms1 hms2 : Q * Q * Q,
    clock_time script_config (24 * 2 ^ 59 + 1536) = Ok hms1 /\
    clock_time script_config (24 * 2 ^ 59 + 1536 + 1) = Ok hms2 /\
    minute_angle (hand_angles hms1) == 218 # 5 /\
    minute_angle (hand_angles hms2) == 154 # 5 /\
    forall k : Z,
      6 < Qabs (minute_angle (hand_angles hms2) - minute_angle (hand_angles hms1)
                - inject_Z k * 360).
Proof.
  eexists. eexists.
  split; [vm_compute; reflexivity | split; [vm_compute; reflexivity | ]].
  match goal with
  | |- ?a == _ /\ ?b == _ /\ _ =>
      assert (Ea : a == 218 # 5) by (vm_compute; reflexivity);
      assert (Eb : b == 154 # 5) by (vm_compute; reflexivity);
      set (x := a) in *; set (y := b) in *; clearbody x y
  end.
  split; [exact Ea | split; [exact Eb | ]].
  intros k. rewrite Ea, Eb.
  destruct (Z_le_gt_dec 0 k) as [Hk | Hk].
  - assert (H0 : 0 <= inject_Z k) by (change 0 with (inject_Z 0); rewrite <- Zle_Qle; exact Hk).
    rewrite Qabs_neg; set (z := inject_Z k) in *; clearbody z; lra.
  - assert (H0 : inject_Z k <= - (1)).
    { change (- (1)) with (inject_Z (-1)). rewrite <- Zle_Qle. lia. }
    rewrite Qabs_pos; set (z := inject_Z k) in *; clearbody z; lra.
Qed.

(** C6, amended.  For a positive frame rate and a start time below
    [2 ^ 53] seconds, whenever the elapsed times of two consecutive
    frames [f] and [f + 1] are below [2 ^ 53] seconds in size, the
    minute hand's angle moves between them by no more than 6 degrees,
    modulo 360, also when the second passes from 59 to 0 in between. *)
Theorem minute_hand_continuous (cfg : Config) (f : Z) :
  (0 < FPS cfg)%Z ->
  (Z.abs (start_seconds cfg) < 2 ^ 53)%Z ->
  (Z.abs f < 2 ^ 53 * FPS cfg)%Z ->
  (Z.abs (f + 1) < 2 ^ 53 * FPS cfg)%Z ->
  exists (hms1 hms2 : Q * Q * Q) (k : Z),
    clock_time cfg f = Ok hms1 /\
    clock_time cfg (f + 1) = Ok hms2 /\
    Qabs (minute_angle (hand_angles hms2) - minute_angle (hand_angles hms1)
          - inject_Z k * 360) <= 6.
Proof.
  intros Hfps Hs Hf1 Hf2.
  assert (Hnz : FPS cfg <> 0%Z) by lia.
  assert (Hn : (0 <= 53 <= 53)%Z) by lia.
  assert (Hf1' : (Z.abs f < 2 ^ 53 * Z.abs (FPS cfg))%Z) by lia.
  assert (Hf2' : (Z.abs (f + 1) < 2 ^ 53 * Z.abs (FPS cfg))%Z) by lia.
  destruct (float_total_close cfg f 53 Hn Hnz Hs Hf1') as (t1 & Ht1 & Hlo1 & Hhi1).
  destruct (float_total_close cfg (f + 1) 53 Hn Hnz Hs Hf2') as (t2 & Ht2 & Hlo2 & Hhi2).
  change (pow2 (53 - 52)) with (pow2 1) in *.
  assert (E2 : pow2 1 == 2) by reflexivity. rewrite E2 in Hlo1, Hhi1, Hlo2, Hhi2.
  pose proof (next_frame_total cfg f Hnz) as Enext.
  assert (Hstep : 0 <= / inject_Z (FPS cfg) /\ / inject_Z (FPS cfg) <= 1).
  { split.
    - apply Qinv_le_0_compat. change 0 with (inject_Z 0). rewrite <- Zle_Qle. lia.
    - pose proof (inv_whole_small (FPS cfg) Hnz) as Hsm.
      apply Qabs_Qle_condition in Hsm. apply Hsm. }
  exists (break_total t1), (break_total t2),
         (Qfloor (t2 / 3600) - Qfloor (t1 / 3600))%Z.
  split; [apply clock_time_of_total; exact Ht1 | ].
  split; [apply clock_time_of_total; exact Ht2 | ].
  rewrite !minute_angle_closed.
  destruct (float_mod_3600_close t1) as [Hm1 Hm1'].
  destruct (float_mod_3600_close t2) as [Hm2 Hm2'].
  assert (Hp : pow2 (-42) <= 1) by (vm_compute; discriminate).
  pose proof (pow2_pos (-42)) as Hp0.
  unfold real_mod in Hm1, Hm1', Hm2, Hm2'.
  unfold Z.sub. rewrite inject_Z_plus, inject_Z_opp.
  set (k1 := inject_Z (Qfloor (t1 / 3600))) in *.
  set (k2 := inject_Z (Qfloor (t2 / 3600))) in *.
  set (r1 := float_mod t1 3600) in *. set (r2 := float_mod t2 3600) in *.
  set (T1 := spec_total cfg f) in *. set (T2 := spec_total cfg (f + 1)) in *.
  set (step := / inject_Z (FPS cfg)) in *. set (eps := pow2 (-42)) in *.
  assert (E : 90 - r2 / 10 - (90 - r1 / 10) - (k2 + - k1) * 360
              == - (1 # 10) * ((r2 - (t2 - 3600 * k2)) - (r1 - (t1 - 3600 * k1))
                               + (t2 - T2) - (t1 - T1) + (T2 - T1))) by field.
  rewrite E, Enext.
  clearbody k1 k2 r1 r2 T1 T2 step eps.
  apply Qabs_Qle_condition. split; lra.
Qed.

Lemma minute_hand_continuous_witness :
  exists (hms1 hms2 : Q * Q * Q) (k : Z),
    clock_time script_config 719 = Ok hms1 /\
    clock_time script_config (719 + 1) = Ok hms2 /\
    Qabs (minute_angle (hand_angles hms2) - minute_angle (hand_angles hms1)
          - inject_Z k * 360) <= 6.
Proof.
  apply (minute_hand_continuous script_config 719); vm_compute; reflexivity.
Defined.

(** In the script the second passes from 59 to 0 between frames 719 and
    720 (12:10:30 plus 30 seconds), and frame 1021680 is the first to
    read 0:00:00 again. *)
Example minute_rollover_in_script :
  reads (clock_time script_config 719) 0 10 (8240610585259 # 137438953472) /\
  reads (clock_time script_config 720) 0 11 0 /\
  reads (clock_time script_config 1021680) 0 0 0 /\
  reads (hms <- clock_time script_config 720 ;; Ok (hand_angles hms))
        (169 # 2) 24 90.
Proof. vm_compute. repeat split; reflexivity. Qed.

(* ================================================================== *)
(** ** Part D: the three phases of the text *)

(** C4.  For every frame index [f] (and the script's positive frame
    rate) the text state is the three-phase function of [f]: before
    [fadeStart] alpha 0 and position -1; from [fadeStart] to [fadeEnd],
    with [t = (f - fadeStart) / (fadeEnd - fadeStart)], alpha [t] and
    position [-1 + 0.5 * t]; after [fadeEnd] alpha 1 and position -0.5.
    At [fadeStart] this is (0, -1), at [fadeEnd] (1, -0.5) and at the
    midpoint (0.5, -0.75). *)
Theorem text_fade_three_phases (cfg : Config) (f : Z) :
  (0 < FPS cfg)%Z ->
  ((f < fade_start_frame cfg)%Z -> text_fade cfg f = Ok (0, -1)) /\
  ((fade_start_frame cfg <= f <= fade_end_frame cfg)%Z ->
   exists t : Q,
     t = inject_Z (f - fade_start_frame cfg)
         / inject_Z (fade_end_frame cfg - fade_start_frame cfg) /\
     text_fade cfg f = Ok (t, -1 + (1 # 2) * t)) /\
  ((fade_end_frame cfg < f)%Z -> text_fade cfg f = Ok (1, -(1 # 2))) /\
  fades (text_fade cfg (fade_start_frame cfg)) 0 (-1) /\
  fades (text_fade cfg (fade_end_frame cfg)) 1 (-(1 # 2)) /\
  fades (text_fade cfg ((fade_start_frame cfg + fade_end_frame cfg) / 2))
        (1 # 2) (-(3 # 4)).
Proof.
  intros Hfps.
  assert (Hnz : FPS cfg <> 0%Z) by lia.
  assert (Hq : ~ inject_Z (FPS cfg) == 0) by (apply inject_Z_nonzero; exact Hnz).
  assert (Hmid : ((fade_start_frame cfg + fade_end_frame cfg) / 2 = 2 * FPS cfg)%Z).
  { unfold fade_start_frame, fade_end_frame.
    replace (FPS cfg * 1 + FPS cfg * 3)%Z with (2 * FPS cfg * 2)%Z by lia.
    apply Z.div_mul. lia. }
  split; [apply text_fade_before | ].
  split; [intros Hin; eexists; split; [reflexivity | ];
          apply text_fade_during; assumption | ].
  split; [intros Ha; apply text_fade_after;
          [unfold fade_start_frame, fade_end_frame in *; lia | exact Ha] | ].
  split; [ | split].
  - rewrite text_fade_during;
      [ | exact Hnz | unfold fade_start_frame, fade_end_frame; lia].
    rewrite fade_window, Z.sub_diag. unfold fades. split.
    + rewrite inject_Z_mult. field. exact Hq.
    + rewrite inject_Z_mult. field. exact Hq.
  - rewrite text_fade_during;
      [ | exact Hnz | unfold fade_start_frame, fade_end_frame; lia].
    rewrite fade_window. unfold fades. split.
    + rewrite inject_Z_mult. field. exact Hq.
    + rewrite inject_Z_mult. field. exact Hq.
  - rewrite Hmid.
    rewrite text_fade_during;
      [ | exact Hnz | unfold fade_start_frame, fade_end_frame; lia].
    rewrite fade_window.
    replace (2 * FPS cfg - fade_start_frame cfg)%Z with (FPS cfg)
      by (unfold fade_start_frame; lia).
    unfold fades. split.
    + rewrite inject_Z_mult. field. exact Hq.
    + rewrite inject_Z_mult. field. exact Hq.
Qed.

Lemma text_fade_three_phases_witness :
  ((48 < fade_start_frame script_config)%Z -> text_fade script_config 48 = Ok (0, -1)) /\
  ((fade_start_frame script_config <= 48 <= fade_end_frame script_config)%Z ->
   exists t : Q,
     t = inject_Z (48 - fade_start_frame script_config)
         / inject_Z (fade_end_frame script_config - fade_start_frame script_config) /\
     text_fade script_config 48 = Ok (t, -1 + (1 # 2) * t)) /\
  ((fade_end_frame script_config < 48)%Z ->
   text_fade script_config 48 = Ok (1, -(1 # 2))) /\
  fades (text_fade script_config (fade_start_frame script_config)) 0 (-1) /\
  fades (text_fade script_config (fade_end_frame script_config)) 1 (-(1 # 2)) /\
  fades (text_fade script_config
           ((fade_start_frame script_config + fade_end_frame script_config) / 2))
        (1 # 2) (-(3 # 4)).
Proof.
  apply (text_fade_three_phases script_config 48). simpl. lia.
Defined.

(* ================================================================== *)
(** ** The converter *)

(** C5.  For every radius [r], angle [thetaDeg] and centre [(x0, y0)],
    [polar_to_cartesian] returns [(x0 + r cos theta, y0 + r sin theta)]
    with [theta = thetaDeg * pi / 180]; [polar_to_cartesian 1 0] is
    [(1, 0)] and [polar_to_cartesian 1 90] is [(0, 1)]. *)
Theorem polar_to_cartesian_spec (r thetaDeg x0 y0 : R) :
  polar_to_cartesian r thetaDeg (x0, y0) =
    (x0 + r * cos (thetaDeg * PI / 180), y0 + r * sin (thetaDeg * PI / 180))%R /\
  polar_to_cartesian 1 0 default_center = (1, 0)%R /\
  polar_to_cartesian 1 90 default_center = (0, 1)%R.
Proof.
  unfold polar_to_cartesian, deg2rad, default_center. simpl.
  split; [ | split].
  - replace (thetaDeg * (PI / 180))%R with (thetaDeg * PI / 180)%R by field.
    reflexivity.
  - rewrite Rmult_0_l, cos_0, sin_0. f_equal; ring.
  - replace (90 * (PI / 180))%R with (PI / 2)%R by field.
    rewrite cos_PI2, sin_PI2. f_equal; ring.
Qed.

(* ================================================================== *)
(** ** [update_frame] keeps no state between frames *)

(** C8.  For a fixed configuration, what [update_frame] leaves in the
    artists (hand end points, hence angles, text alpha and vertical
    position) is a function of the frame index alone: it is the same
    whatever the artists held before, calling it a second time with the
    same index changes nothing, and it is the same after any run of
    earlier frames. *)
Theorem update_frame_depends_on_frame_only (cfg : Config) (f : Z) :
  (forall a1 a2 : Artists, update_frame cfg f a1 = update_frame cfg f a2) /\
  (forall a : Artists,
      (a' <- update_frame cfg f a ;; update_frame cfg f a') = update_frame cfg f a) /\
  (forall (history : list Z) (a : Artists),
      (a' <- play cfg history a ;; update_frame cfg f a') =
      (_ <- play cfg history a ;; update_frame cfg f a)).
Proof.
  assert (H : forall a1 a2 : Artists, update_frame cfg f a1 = update_frame cfg f a2)
    by (intros a1 a2; reflexivity).
  split; [exact H | split].
  - intros a. destruct (update_frame cfg f a) as [a' | e | ] eqn:E; simpl.
    + rewrite (H a' a). exact E.
    + reflexivity.
    + reflexivity.
  - intros history a. destruct (play cfg history a) as [a' | e | ]; simpl.
    + apply H.
    + reflexivity.
    + reflexivity.
Qed.

(* ================================================================== *)
(** ** Equal fade thresholds and unchecked configurations *)

Lemma ratio_in_unit (a b : Z) :
  (0 <= a <= b)%Z -> (0 < b)%Z ->
  0 <= inject_Z a / inject_Z b /\ inject_Z a / inject_Z b <= 1.
Proof.
  intros [Ha Hab] Hb.
  assert (Hb' : 0 < inject_Z b)
    by (change 0 with (inject_Z 0); rewrite <- Zlt_Qlt; exact Hb).
  split.
  - apply Qle_shift_div_l; [exact Hb' | ].
    rewrite Qmult_0_l. change 0 with (inject_Z 0). rewrite <- Zle_Qle. exact Ha.
  - apply Qle_shift_div_r; [exact Hb' | ].
    rewrite Qmult_1_l. rewrite <- Zle_Qle. exact Hab.
Qed.

(** C7, as the code has it.  The fade step has no guard for equal
    thresholds.  The thresholds are [FPS * 1] and [FPS * 3], the divisor
    [fadeEnd - fadeStart] is [2 * FPS], and for every non-zero frame
    rate (the script's is 24) it is not zero: the step raises nothing
    and returns an alpha in [[0, 1]] and a position in [[-1, -0.5]]. *)
Theorem fade_divisor_nonzero (cfg : Config) (f : Z) :
  FPS cfg <> 0%Z ->
  (fade_end_frame cfg - fade_start_frame cfg)%Z = (2 * FPS cfg)%Z /\
  (fade_end_frame cfg - fade_start_frame cfg)%Z <> 0%Z /\
  exists al y : Q,
    text_fade cfg f = Ok (al, y) /\
    (0 <= al /\ al <= 1) /\ (-1 <= y /\ y <= -(1 # 2)).
Proof.
  intros Hfps. split; [apply fade_window | ].
  split; [rewrite fade_window; lia | ].
  destruct (Z_lt_le_dec f (fade_start_frame cfg)) as [Hb | Hlo].
  - exists 0, (-1). split; [apply text_fade_before; exact Hb | ].
    split; split; lra.
  - destruct (Z_le_gt_dec f (fade_end_frame cfg)) as [Hhi | Ha].
    + eexists. eexists.
      split; [apply text_fade_during; [exact Hfps | split; assumption] | ].
      assert (Hwin : (0 < fade_end_frame cfg - fade_start_frame cfg)%Z).
      { rewrite fade_window. unfold fade_start_frame, fade_end_frame in *. lia. }
      destruct (ratio_in_unit (f - fade_start_frame cfg)
                  (fade_end_frame cfg - fade_start_frame cfg)) as [H0 H1];
        [lia | exact Hwin | ].
      set (t := inject_Z (f - fade_start_frame cfg)
                / inject_Z (fade_end_frame cfg - fade_start_frame cfg)) in *.
      clearbody t. split; split; lra.
    + exists 1, (-(1 # 2)).
      split; [apply text_fade_after; [exact Hlo | lia] | ].
      split; split; lra.
Qed.

Lemma fade_divisor_nonzero_witness :
  (fade_end_frame script_config - fade_start_frame script_config)%Z
  = (2 * FPS script_config)%Z /\
  (fade_end_frame script_config - fade_start_frame script_config)%Z <> 0%Z /\
  exists al y : Q,
    text_fade script_config 48 = Ok (al, y) /\
    (0 <= al /\ al <= 1) /\ (-1 <= y /\ y <= -(1 # 2)).
Proof.
  apply (fade_divisor_nonzero script_config 48). simpl. lia.
Defined.

(** C7 fails as stated: with equal thresholds (frame rate 0) the fade
    step at the threshold frame divides by zero and returns no boundary
    value; [update_frame] as a whole raises too, already at its first
    division, [frame / FPS]. *)
Lemma equal_thresholds_raise :
  fade_end_frame (with_fps 0) = fade_start_frame (with_fps 0) /\
  text_fade (with_fps 0) 0 = Raise ZeroDivisionError /\
  update_frame (with_fps 0) 0 created_artists = Raise ZeroDivisionError.
Proof. repeat split. Qed.



(* ================================================================== *)
(** ** More on the clock reading *)

(** X1.  The reading recomposes to the time of day: [hour * 3600 +
    minute * 60 + second] is the total of lines 228-229 up to a whole
    number of 12-hour periods, for every frame in the range of binary64
    that is not negative, and for every negative one too when the clock
    starts at [2 ^ 15] seconds or later. *)
Theorem reading_recomposes (cfg : Config) (f : Z) :
  (0 < FPS cfg)%Z ->
  (0 <= start_seconds cfg < 2 ^ 53)%Z ->
  (Z.abs f < binary64_limit * FPS cfg)%Z ->
  (0 <= f \/ 32768 <= start_seconds cfg)%Z ->
  exists (total h m s : Q) (k : Z),
    float_total cfg f = Ok total /\
    clock_time cfg f = Ok (h, m, s) /\
    total == inject_Z k * 43200 + (h * 3600 + m * 60 + s).
Proof.
  intros Hfps Hs Hf Hscope.
  destruct (clock_time_in_scope cfg f Hfps Hs Hf Hscope) as (total & Ht & Hc & Hx).
  pose proof (break_total_recomposes total Hx) as Hr.
  destruct (break_total total) as [[h m] s].
  exists total, h, m, s, (Qfloor (total / 43200)).
  split; [exact Ht | split; [exact Hc | ]].
  rewrite Hr. unfold real_mod. ring.
Qed.

Lemma reading_recomposes_witness :
  exists (total h m s : Q) (k : Z),
    float_total script_config (-239) = Ok total /\
    clock_time script_config (-239) = Ok (h, m, s) /\
    total == inject_Z k * 43200 + (h * 3600 + m * 60 + s).
Proof.
  apply (reading_recomposes script_config (-239));
    [ | | | right]; vm_compute; repeat split; discriminate.
Defined.

(** X5.  For the same frames every angle [update_frame] computes lies
    in the single turn from just above -270 degrees up to 90 degrees
    (12 o'clock). *)
Theorem hand_angles_in_one_turn (cfg : Config) (f : Z) :
  (0 < FPS cfg)%Z ->
  (0 <= start_seconds cfg < 2 ^ 53)%Z ->
  (Z.abs f < binary64_limit * FPS cfg)%Z ->
  (0 <= f \/ 32768 <= start_seconds cfg)%Z ->
  exists hms : Q * Q * Q,
    clock_time cfg f = Ok hms /\
    (-270 < hour_angle (hand_angles hms) /\ hour_angle (hand_angles hms) <= 90) /\
    (-270 < minute_angle (hand_angles hms) /\ minute_angle (hand_angles hms) <= 90) /\
    (-270 < second_angle (hand_angles hms) /\ second_angle (hand_angles hms) <= 90).
Proof.
  intros Hfps Hs Hf Hscope.
  destruct (clock_time_in_scope cfg f Hfps Hs Hf Hscope) as (total & _ & Hc & Hx).
  exists (break_total total). split; [exact Hc | ].
  pose proof (break_total_in_range total Hx) as Hrange.
  pose proof (break_total_recomposes total Hx) as Hsum.
  pose proof (minute_angle_closed total) as Hmin.
  destruct Hx as [_ Hx3600]. rewrite Hx3600 in Hmin.
  destruct (real_mod_range 43200 Q43200_pos total) as [H12a H12b].
  destruct (real_mod_range 3600 Q3600_pos total) as [Hra Hrb].
  set (t12 := real_mod total 43200) in *. set (rem := real_mod total 3600) in *.
  destruct (break_total total) as [[h m] s] eqn:Eb.
  unfold in_range in Hrange. destruct Hrange as ((Hh0 & Hh1) & (Hm0 & Hm1) & (Hs0 & Hs1)).
  assert (Ehour : hour_angle (hand_angles (h, m, s)) == 90 - (h * 30 + m * (1 # 2)))
    by (unfold hour_angle, hand_angles, hour_angle_of; cbn [fst snd]; field).
  assert (Esec : second_angle (hand_angles (h, m, s)) == 90 - s * 6) by reflexivity.
  assert (Emin : minute_angle (hand_angles (h, m, s)) == 90 - rem * (1 # 10))
    by (rewrite Hmin; field).
  rewrite Ehour, Emin, Esec. clearbody t12 rem.
  repeat split; lra.
Qed.

Lemma hand_angles_in_one_turn_witness :
  exists hms : Q * Q * Q,
    clock_time script_config 239 = Ok hms /\
    (-270 < hour_angle (hand_angles hms) /\ hour_angle (hand_angles hms) <= 90) /\
    (-270 < minute_angle (hand_angles hms) /\ minute_angle (hand_angles hms) <= 90) /\
    (-270 < second_angle (hand_angles hms) /\ second_angle (hand_angles hms) <= 90).
Proof.
  apply (hand_angles_in_one_turn script_config 239);
    [ | | | left]; vm_compute; repeat split; discriminate.
Defined.

(* ================================================================== *)
(** ** More on the converter *)

Lemma cos_period_Z (x : R) (k : Z) : cos (x + 2 * IZR k * PI) = cos x.
Proof.
  destruct (Z_le_gt_dec 0 k) as [Hk | Hk].
  - rewrite <- (Z2Nat.id k Hk), <- INR_IZR_INZ. apply cos_period.
  - rewrite <- (cos_period (x + 2 * IZR k * PI) (Z.to_nat (- k))).
    rewrite INR_IZR_INZ, Z2Nat.id by lia. rewrite opp_IZR. f_equal. ring.
Qed.

Lemma sin_period_Z (x : R) (k : Z) : sin (x + 2 * IZR k * PI) = sin x.
Proof.
  destruct (Z_le_gt_dec 0 k) as [Hk | Hk].
  - rewrite <- (Z2Nat.id k Hk), <- INR_IZR_INZ. apply sin_period.
  - rewrite <- (sin_period (x + 2 * IZR k * PI) (Z.to_nat (- k))).
    rewrite INR_IZR_INZ, Z2Nat.id by lia. rewrite opp_IZR. f_equal. ring.
Qed.

Lemma sin_cos_unit (x : R) : (cos x * cos x + sin x * sin x = 1)%R.
Proof. pose proof (sin2_cos2 x) as H. unfold Rsqr in H. lra. Qed.

Lemma polar_dist2 (r theta : R) (c : R * R) :
  dist2 (polar_to_cartesian r theta c) c = (r * r)%R.
Proof.
  unfold dist2, polar_to_cartesian. cbn [fst snd].
  pose proof (sin_cos_unit (deg2rad theta)) as H.
  set (co := cos (deg2rad theta)) in *. set (si := sin (deg2rad theta)) in *.
  replace ((fst c + r * co - fst c) * (fst c + r * co - fst c)
           + (snd c + r * si - snd c) * (snd c + r * si - snd c))%R
    with (r * r * (co * co + si * si))%R by ring.
  rewrite H. ring.
Qed.

Lemma polar_same_ray (r1 r2 theta : R) (c : R * R) :
  dist2 (polar_to_cartesian r1 theta c) (polar_to_cartesian r2 theta c)
  = ((r1 - r2) * (r1 - r2))%R.
Proof.
  unfold dist2, polar_to_cartesian. cbn [fst snd].
  pose proof (sin_cos_unit (deg2rad theta)) as H.
  set (co := cos (deg2rad theta)) in *. set (si := sin (deg2rad theta)) in *.
  replace ((fst c + r1 * co - (fst c + r2 * co)) * (fst c + r1 * co - (fst c + r2 * co))
           + (snd c + r1 * si - (snd c + r2 * si)) * (snd c + r1 * si - (snd c + r2 * si)))%R
    with ((r1 - r2) * (r1 - r2) * (co * co + si * si))%R by ring.
  rewrite H. ring.
Qed.

(** X6.  The point [polar_to_cartesian] returns lies at distance [|r|]
    from the centre, whatever the angle, and two points of the same
    angle are [|r1 - r2|] apart. *)
Theorem polar_point_on_circle (r r' theta : R) (c : R * R) :
  dist2 (polar_to_cartesian r theta c) c = (r * r)%R /\
  dist2 (polar_to_cartesian r theta c) (polar_to_cartesian r' theta c)
  = ((r - r') * (r - r'))%R.
Proof. split; [apply polar_dist2 | apply polar_same_ray]. Qed.

(** X7.  The converter has period 360 degrees, a half turn is the same
    as a negative radius, and negating the angle mirrors the point in the
    horizontal line through the centre. *)
Theorem polar_turns (r theta : R) (c : R * R) (k : Z) :
  polar_to_cartesian r (theta + 360 * IZR k) c = polar_to_cartesian r theta c /\
  polar_to_cartesian r (theta + 180) c = polar_to_cartesian (- r) theta c /\
  polar_to_cartesian r (- theta) c =
    (fst (polar_to_cartesian r theta c),
     (2 * snd c - snd (polar_to_cartesian r theta c))%R).
Proof.
  unfold polar_to_cartesian, deg2rad. cbn [fst snd].
  split; [ | split].
  - replace ((theta + 360 * IZR k) * (PI / 180))%R
      with (theta * (PI / 180) + 2 * IZR k * PI)%R by field.
    rewrite cos_period_Z, sin_period_Z. reflexivity.
  - replace ((theta + 180) * (PI / 180))%R with (theta * (PI / 180) + PI)%R by field.
    rewrite neg_cos, neg_sin. f_equal; ring.
  - replace (- theta * (PI / 180))%R with (- (theta * (PI / 180)))%R by ring.
    rewrite cos_neg, sin_neg. f_equal; ring.
Qed.

(* ================================================================== *)
(** ** The hands and the hour indices *)

(** X8.  In every frame that has a clock reading, [update_frame]
    returns and each hand is drawn from the centre to a tip whose
    distance from the centre is the hand's length fraction times the
    dial radius: the hands turn but never change length. *)
Theorem hands_keep_their_length (cfg : Config) (f : Z) (a : Artists)
    (hms : Q * Q * Q) :
  clock_time cfg f = Ok hms ->
  exists (a' : Artists) (ph pm ps : R * R),
    update_frame cfg f a = Ok a' /\
    hour_line a' = set_data [0%R; fst ph] [0%R; snd ph] /\
    minute_line a' = set_data [0%R; fst pm] [0%R; snd pm] /\
    second_line a' = set_data [0%R; fst ps] [0%R; snd ps] /\
    dist2 ph (0, 0)%R
      = (Q2R (HOUR_HAND_LENGTH cfg * R_DIAL cfg) * Q2R (HOUR_HAND_LENGTH cfg * R_DIAL cfg))%R /\
    dist2 pm (0, 0)%R
      = (Q2R (MINUTE_HAND_LENGTH cfg * R_DIAL cfg) * Q2R (MINUTE_HAND_LENGTH cfg * R_DIAL cfg))%R /\
    dist2 ps (0, 0)%R
      = (Q2R (SECOND_HAND_LENGTH cfg * R_DIAL cfg) * Q2R (SECOND_HAND_LENGTH cfg * R_DIAL cfg))%R.
Proof.
  intros Hc. destruct (update_frame_returns cfg f a hms Hc) as (ay & _ & Hu).
  exists (drawn cfg hms ay),
         (hand_endpoint (HOUR_HAND_LENGTH cfg) (R_DIAL cfg) (hour_angle (hand_angles hms))),
         (hand_endpoint (MINUTE_HAND_LENGTH cfg) (R_DIAL cfg) (minute_angle (hand_angles hms))),
         (hand_endpoint (SECOND_HAND_LENGTH cfg) (R_DIAL cfg) (second_angle (hand_angles hms))).
  split; [exact Hu | ].
  repeat (split; [reflexivity | ]).
  unfold hand_endpoint, default_center.
  split; [apply polar_dist2 | split; apply polar_dist2].
Qed.

Lemma hands_keep_their_length_witness :
  exists (a' : Artists) (ph pm ps : R * R),
    update_frame script_config 100 created_artists = Ok a' /\
    hour_line a' = set_data [0%R; fst ph] [0%R; snd ph] /\
    minute_line a' = set_data [0%R; fst pm] [0%R; snd pm] /\
    second_line a' = set_data [0%R; fst ps] [0%R; snd ps] /\
    dist2 ph (0, 0)%R
      = (Q2R (HOUR_HAND_LENGTH script_config * R_DIAL script_config)
         * Q2R (HOUR_HAND_LENGTH script_config * R_DIAL script_config))%R /\
    dist2 pm (0, 0)%R
      = (Q2R (MINUTE_HAND_LENGTH script_config * R_DIAL script_config)
         * Q2R (MINUTE_HAND_LENGTH script_config * R_DIAL script_config))%R /\
    dist2 ps (0, 0)%R
      = (Q2R (SECOND_HAND_LENGTH script_config * R_DIAL script_config)
         * Q2R (SECOND_HAND_LENGTH script_config * R_DIAL script_config))%R.
Proof.
  assert (Hc : exists hms, clock_time script_config 100 = Ok hms)
    by (eexists; vm_compute; reflexivity).
  destruct Hc as [hms Hc].
  apply (hands_keep_their_length script_config 100 created_artists hms Hc).
Defined.

Lemma hour_tick_length (h : Z) :
  (if (h mod 3 =? 0)%Z then (TICK_LONG, TICK_WIDTH * (14 # 10))
   else (TICK_SHORT, TICK_WIDTH))
  = (if (h mod 3 =? 0)%Z then TICK_LONG else TICK_SHORT,
     if (h mod 3 =? 0)%Z then TICK_WIDTH * (14 # 10) else TICK_WIDTH).
Proof. destruct (h mod 3 =? 0)%Z; reflexivity. Qed.

(** X9.  Every hour index is a radial stroke: its two ends lie on one
    ray from the centre, the outer one 0.02 inside the dial radius, and
    the stroke is 0.12 long at the hours divisible by three and 0.08
    long at the others. *)
Theorem hour_tick_is_radial (cfg : Config) (h : Z) :
  exists inner outer : R * R,
    tick_line (hour_tick cfg h)
      = set_data [fst inner; fst outer] [snd inner; snd outer] /\
    dist2 outer (0, 0)%R
      = (Q2R (R_DIAL cfg - (2 # 100)) * Q2R (R_DIAL cfg - (2 # 100)))%R /\
    dist2 outer inner
      = (Q2R (if (h mod 3 =? 0)%Z then 12 # 100 else 8 # 100)
         * Q2R (if (h mod 3 =? 0)%Z then 12 # 100 else 8 # 100))%R /\
    (Q2R (R_DIAL cfg - (2 # 100)) * fst inner
       = Q2R (R_DIAL cfg - (2 # 100)
              - (if (h mod 3 =? 0)%Z then 12 # 100 else 8 # 100)) * fst outer)%R /\
    (Q2R (R_DIAL cfg - (2 # 100)) * snd inner
       = Q2R (R_DIAL cfg - (2 # 100)
              - (if (h mod 3 =? 0)%Z then 12 # 100 else 8 # 100)) * snd outer)%R.
Proof.
  unfold hour_tick. rewrite hour_tick_length.
  set (len := if (h mod 3 =? 0)%Z then TICK_LONG else TICK_SHORT).
  assert (Elen : len = if (h mod 3 =? 0)%Z then 12 # 100 else 8 # 100)
    by (unfold len; destruct (h mod 3 =? 0)%Z; reflexivity).
  rewrite <- Elen.
  eexists. eexists. cbn [tick_line].
  split; [reflexivity | ].
  split; [apply polar_dist2 | ].
  split.
  - rewrite polar_same_ray. rewrite (Q2R_minus _ len). ring.
  - unfold polar_to_cartesian, default_center. cbn [fst snd]. split; ring.
Qed.

Lemma Q2R_inject_Z (z : Z) : Q2R (inject_Z z) = IZR z.
Proof. unfold Q2R, inject_Z. cbn [Qnum Qden]. field. Qed.


(** The reading of a total that is a full hour. *)
Lemma break_total_on_the_hour (total : Q) (hh k : Z) :
  (0 <= hh < 12)%Z ->
  total == inject_Z (hh * 3600 + k * 43200) ->
  reads (Ok (break_total total)) (inject_Z hh) 0 0.
Proof.
  intros Hhh Et.
  pose proof (whole_total_remainders_exact total _ Et) as Hx.
  destruct (break_total_reads total Hx) as (h & m & s & s' & Eb & Er & Es).
  rewrite Eb. cbn [reads]. rewrite Es.
  assert (Hr : reads (Ok (real_break total)) (inject_Z hh) 0 0);
    [ | rewrite Er in Hr; exact Hr].
  clear Hx h m s s' Eb Er Es.
  unfold reads, real_break.
  assert (E12 : real_mod total 43200 == inject_Z (hh * 3600)).
  { apply (is_mod_unique 43200 Q43200_pos total).
    - apply real_mod_is_mod; [exact Q43200_pos | reflexivity].
    - split; [ | split].
      + change 0 with (inject_Z 0). rewrite <- Zle_Qle. lia.
      + change 43200 with (inject_Z 43200). rewrite <- Zlt_Qlt. lia.
      + exists k. rewrite Et, inject_Z_plus, !inject_Z_mult.
        change (inject_Z 43200) with 43200. ring. }
  assert (Er : real_mod total 3600 == 0).
  { apply (is_mod_unique 3600 Q3600_pos total).
    - apply real_mod_is_mod; [exact Q3600_pos | reflexivity].
    - split; [lra | split; [reflexivity | ]].
      exists (hh + k * 12)%Z. rewrite Et, !inject_Z_plus, !inject_Z_mult.
      change (inject_Z 43200) with 43200. change (inject_Z 3600) with 3600.
      change (inject_Z 12) with 12. ring. }
  rewrite (float_floordiv_comp _ _ 3600 E12).
  rewrite (float_floordiv_comp _ _ 60 Er).
  rewrite (real_mod_comp _ _ 60 Er).
  split; [ | split; reflexivity].
  unfold float_floordiv. change 3600 with (inject_Z 3600).
  rewrite <- Zdiv_Qdiv, Z.div_mul by lia. reflexivity.
Qed.

(** X10.  When the total of lines 228-229 is a full hour [hh] o'clock,
    the hour hand is drawn on the ray of hour index [hh] (the tip of the
    hand and the outer end of the index are the same direction from the
    centre), and the minute and second hands point straight up at 12. *)
Theorem hands_on_the_hour (cfg : Config) (f hh k : Z) (a : Artists) (total : Q) :
  float_total cfg f = Ok total ->
  (0 <= hh < 12)%Z ->
  total == inject_Z (hh * 3600 + k * 43200) ->
  exists (a' : Artists) (tip inner outer : R * R),
    update_frame cfg f a = Ok a' /\
    hour_line a' = set_data [0%R; fst tip] [0%R; snd tip] /\
    tick_line (hour_tick cfg hh)
      = set_data [fst inner; fst outer] [snd inner; snd outer] /\
    (Q2R (R_DIAL cfg - (2 # 100)) * fst tip
       = Q2R (HOUR_HAND_LENGTH cfg * R_DIAL cfg) * fst outer)%R /\
    (Q2R (R_DIAL cfg - (2 # 100)) * snd tip
       = Q2R (HOUR_HAND_LENGTH cfg * R_DIAL cfg) * snd outer)%R /\
    minute_line a'
      = set_data [0%R; 0%R] [0%R; Q2R (MINUTE_HAND_LENGTH cfg * R_DIAL cfg)] /\
    second_line a'
      = set_data [0%R; 0%R] [0%R; Q2R (SECOND_HAND_LENGTH cfg * R_DIAL cfg)].
Proof.
  intros Ht Hhh Et.
  pose proof (clock_time_of_total cfg f total Ht) as Hc.
  destruct (update_frame_returns cfg f a _ Hc) as (ay & _ & Hu).
  pose proof (break_total_on_the_hour total hh k Hhh Et) as Hr.
  destruct (break_total total) as [[h m] s]. cbn [reads] in Hr.
  destruct Hr as (Eh & Em & Es).
  assert (Ahour : Q2R (hour_angle (hand_angles (h, m, s))) = IZR (90 - hh * 30)).
  { rewrite <- Q2R_inject_Z. apply Qeq_eqR.
    unfold hour_angle, hand_angles, hour_angle_of. cbn [fst snd].
    rewrite Eh, Em. unfold Z.sub. rewrite inject_Z_plus, inject_Z_opp, inject_Z_mult.
    change (inject_Z 90) with 90. change (inject_Z 30) with 30. field. }
  assert (Amin : Q2R (minute_angle (hand_angles (h, m, s))) = 90%R).
  { change 90%R with (IZR 90). rewrite <- Q2R_inject_Z. apply Qeq_eqR.
    unfold minute_angle, hand_angles, minute_angle_of. cbn [fst snd].
    rewrite Em, Es. reflexivity. }
  assert (Asec : Q2R (second_angle (hand_angles (h, m, s))) = 90%R).
  { change 90%R with (IZR 90). rewrite <- Q2R_inject_Z. apply Qeq_eqR.
    unfold second_angle, hand_angles, second_angle_of. cbn [fst snd].
    rewrite Es. reflexivity. }
  assert (Up : forall r : R,
             polar_to_cartesian r 90 default_center = (0%R, r)).
  { intros r. unfold polar_to_cartesian, deg2rad, default_center. cbn [fst snd].
    replace (90 * (PI / 180))%R with (PI / 2)%R by field.
    rewrite cos_PI2, sin_PI2. f_equal; ring. }
  exists (drawn cfg (h, m, s) ay). eexists. eexists. eexists.
  split; [exact Hu | ].
  unfold drawn, hand_endpoint, hand_line. cbn [hour_line minute_line second_line].
  rewrite Ahour, Amin, Asec, !Up.
  split; [reflexivity | ].
  unfold hour_tick. rewrite hour_tick_length. cbn [tick_line].
  split; [reflexivity | ].
  unfold polar_to_cartesian, default_center. cbn [fst snd].
  split; [ring | split; [ring | split; reflexivity]].
Qed.

Lemma hands_on_the_hour_witness :
  exists (a' : Artists) (tip inner outer : R * R),
    update_frame script_config 71280 created_artists = Ok a' /\
    hour_line a' = set_data [0%R; fst tip] [0%R; snd tip] /\
    tick_line (hour_tick script_config 1)
      = set_data [fst inner; fst outer] [snd inner; snd outer] /\
    (Q2R (R_DIAL script_config - (2 # 100)) * fst tip
       = Q2R (HOUR_HAND_LENGTH script_config * R_DIAL script_config) * fst outer)%R /\
    (Q2R (R_DIAL script_config - (2 # 100)) * snd tip
       = Q2R (HOUR_HAND_LENGTH script_config * R_DIAL script_config) * snd outer)%R /\
    minute_line a'
      = set_data [0%R; 0%R]
                 [0%R; Q2R (MINUTE_HAND_LENGTH script_config * R_DIAL script_config)] /\
    second_line a'
      = set_data [0%R; 0%R]
                 [0%R; Q2R (SECOND_HAND_LENGTH script_config * R_DIAL script_config)].
Proof.
  assert (Ht : exists total, float_total script_config 71280 = Ok total /\
                             total == inject_Z (1 * 3600 + 1 * 43200))
    by (eexists; split; vm_compute; reflexivity).
  destruct Ht as (total & Ht & Et).
  apply (hands_on_the_hour script_config 71280 1 1 created_artists total Ht);
    [lia | exact Et].
Defined.

(* ================================================================== *)
(** ** More on the fading text *)

(** The three cases of [text_fade] for a positive frame rate. *)
Lemma text_fade_cases (cfg : Config) (f : Z) :
  (0 < FPS cfg)%Z ->
  exists al y : Q,
    text_fade cfg f = Ok (al, y) /\
    (((f < FPS cfg)%Z /\ al = 0 /\ y = -1) \/
     ((FPS cfg <= f <= 3 * FPS cfg)%Z /\
      al = inject_Z (f - FPS cfg * 1) / inject_Z (FPS cfg * 3 - FPS cfg * 1) /\
      y = -1 + (1 # 2) * al) \/
     ((3 * FPS cfg < f)%Z /\ al = 1 /\ y = -(1 # 2))).
Proof.
  intros Hpos. assert (Hfps : FPS cfg <> 0%Z) by lia.
  destruct (Z_lt_le_dec f (fade_start_frame cfg)) as [Hb | Hlo].
  - exists 0, (-1). split; [apply text_fade_before; exact Hb | left].
    unfold fade_start_frame in Hb. repeat split; try reflexivity; lia.
  - destruct (Z_le_gt_dec f (fade_end_frame cfg)) as [Hhi | Ha].
    + eexists. eexists.
      split; [apply text_fade_during; [exact Hfps | split; assumption] | right; left].
      unfold fade_start_frame, fade_end_frame in *. repeat split; try reflexivity; lia.
    + exists 1, (-(1 # 2)).
      split; [apply text_fade_after; [exact Hlo | lia] | right; right].
      unfold fade_end_frame in Ha. repeat split; try reflexivity; lia.
Qed.

Lemma ramp_value (cfg : Config) (f : Z) :
  (0 < FPS cfg)%Z ->
  inject_Z (f - FPS cfg * 1) / inject_Z (FPS cfg * 3 - FPS cfg * 1)
  == (inject_Z f - inject_Z (FPS cfg)) * / (2 * inject_Z (FPS cfg)).
Proof.
  intros Hpos.
  replace (FPS cfg * 3 - FPS cfg * 1)%Z with (2 * FPS cfg)%Z by lia.
  replace (f - FPS cfg * 1)%Z with (f + - FPS cfg)%Z by lia.
  rewrite inject_Z_plus, inject_Z_opp, inject_Z_mult.
  change (inject_Z 2) with 2. field. apply inject_Z_nonzero. lia.
Qed.

(** For a positive frame rate the alpha is the ramp
    [(f - FPS) / (2 * FPS)] cut off below at 0 and above at 1. *)
Lemma text_fade_ramp (cfg : Config) (f : Z) :
  (0 < FPS cfg)%Z ->
  exists al y : Q,
    text_fade cfg f = Ok (al, y) /\
    y == -1 + (1 # 2) * al /\
    ((f <= FPS cfg)%Z /\ al == 0 \/
     (FPS cfg < f < 3 * FPS cfg)%Z /\
       al * (2 * inject_Z (FPS cfg)) == inject_Z f - inject_Z (FPS cfg) \/
     (3 * FPS cfg <= f)%Z /\ al == 1).
Proof.
  intros Hpos.
  assert (Hq : ~ inject_Z (FPS cfg) == 0) by (apply inject_Z_nonzero; lia).
  destruct (text_fade_cases cfg f Hpos) as (al & y & Ht & Hc).
  exists al, y. split; [exact Ht | ].
  destruct Hc as [(Hf & Ea & Ey) | [(Hf & Ea & Ey) | (Hf & Ea & Ey)]].
  - subst. split; [reflexivity | left]. split; [lia | reflexivity].
  - split; [rewrite Ey; reflexivity | ].
    pose proof (ramp_value cfg f Hpos) as Er. rewrite <- Ea in Er.
    destruct (Z.eq_dec f (FPS cfg)) as [E1 | N1];
      [ | destruct (Z.eq_dec f (3 * FPS cfg)) as [E3 | N3]].
    + left. split; [lia | ]. rewrite Er, E1. field. exact Hq.
    + right. right. split; [lia | ]. rewrite Er, E3, inject_Z_mult.
      change (inject_Z 3) with 3. field. exact Hq.
    + right. left. split; [lia | ]. rewrite Er. field. exact Hq.
  - subst. split; [reflexivity | right; right]. split; [lia | reflexivity].
Qed.

(** X11.  In every frame the text's vertical position is tied to its
    alpha, [y_text = -1 + alpha / 2]: the text rises exactly as it
    becomes visible. *)
Theorem text_rises_with_alpha (cfg : Config) (f : Z) :
  FPS cfg <> 0%Z ->
  exists al y : Q, text_fade cfg f = Ok (al, y) /\ y == -1 + al / 2.
Proof.
  intros Hfps.
  destruct (Z_lt_le_dec f (fade_start_frame cfg)) as [Hb | Hlo].
  - exists 0, (-1). split; [apply text_fade_before; exact Hb | reflexivity].
  - destruct (Z_le_gt_dec f (fade_end_frame cfg)) as [Hhi | Ha].
    + eexists. eexists.
      split; [apply text_fade_during; [exact Hfps | split; assumption] | field].
      apply inject_Z_nonzero. rewrite fade_window. lia.
    + exists 1, (-(1 # 2)).
      split; [apply text_fade_after; [exact Hlo | lia] | reflexivity].
Qed.

Lemma text_rises_with_alpha_witness :
  exists al y : Q, text_fade script_config 37 = Ok (al, y) /\ y == -1 + al / 2.
Proof.
  apply (text_rises_with_alpha script_config 37). simpl. lia.
Defined.

(** X12.  With a positive frame rate the text never fades back: from one
    frame to any later one its alpha and its position do not decrease. *)
Theorem text_fade_monotone (cfg : Config) (f g : Z) :
  (0 < FPS cfg)%Z ->
  (f <= g)%Z ->
  exists al y al' y' : Q,
    text_fade cfg f = Ok (al, y) /\
    text_fade cfg g = Ok (al', y') /\
    al <= al' /\ y <= y'.
Proof.
  intros Hpos Hfg.
  destruct (text_fade_ramp cfg f Hpos) as (al & y & Ht & Ey & Hc).
  destruct (text_fade_ramp cfg g Hpos) as (al' & y' & Ht' & Ey' & Hc').
  exists al, y, al', y'. split; [exact Ht | split; [exact Ht' | ]].
  assert (Hle : al <= al').
  { assert (Hp : 0 < 2 * inject_Z (FPS cfg)).
    { assert (H1 : 1 <= inject_Z (FPS cfg))
        by (change 1 with (inject_Z 1); rewrite <- Zle_Qle; lia).
      lra. }
    assert (Hfg' : inject_Z f <= inject_Z g) by (rewrite <- Zle_Qle; exact Hfg).
    assert (Hbound : forall (x : Z) (a : Q),
               (FPS cfg < x < 3 * FPS cfg)%Z ->
               a * (2 * inject_Z (FPS cfg)) == inject_Z x - inject_Z (FPS cfg) ->
               0 <= a /\ a <= 1).
    { intros x a [Hx0 Hx1] Ea.
      assert (H0 : inject_Z (FPS cfg) <= inject_Z x) by (rewrite <- Zle_Qle; lia).
      assert (H1 : inject_Z x <= inject_Z (3 * FPS cfg)) by (rewrite <- Zle_Qle; lia).
      rewrite inject_Z_mult in H1. change (inject_Z 3) with 3 in H1.
      split.
      - apply (Qmult_le_r _ _ _ Hp). rewrite Ea. lra.
      - apply (Qmult_le_r _ _ _ Hp). rewrite Ea. lra. }
    destruct Hc as [(Hf & Ea) | [(Hf & Ea) | (Hf & Ea)]];
      destruct Hc' as [(Hg & Ea') | [(Hg & Ea') | (Hg & Ea')]];
      try lia.
    - rewrite Ea, Ea'. lra.
    - rewrite Ea. apply (Hbound g al' Hg Ea').
    - rewrite Ea, Ea'. lra.
    - apply (Qmult_le_r _ _ _ Hp). rewrite Ea, Ea'. lra.
    - rewrite Ea'. apply (Hbound f al Hf Ea).
    - rewrite Ea, Ea'. lra. }
  split; [exact Hle | ]. rewrite Ey, Ey'. lra.
Qed.

Lemma text_fade_monotone_witness :
  exists al y al' y' : Q,
    text_fade script_config 30 = Ok (al, y) /\
    text_fade script_config 60 = Ok (al', y') /\
    al <= al' /\ y <= y'.
Proof.
  apply (text_fade_monotone script_config 30 60); simpl; lia.
Defined.

(** Rounding keeps a quotient of the ramp strictly between 0 and 1. *)
Lemma round64_inside_unit (q : Q) :
  pow2 (-53) <= q -> q <= 1 - pow2 (-53) ->
  pow2 (-53) <= round64 q /\ round64 q <= 1 - pow2 (-53).
Proof.
  intros Hlo Hhi.
  pose proof (pow2_pos (-53)) as Hp.
  assert (Hg : (grid_exponent q <= -53)%Z).
  { apply grid_exponent_le; [lia | ].
    change (pow2 (-53 + 53)) with (pow2 0).
    assert (E0 : pow2 0 == 1) by reflexivity. rewrite E0.
    apply Qabs_Qlt_condition. split; lra. }
  split.
  - apply round64_ge_grid; [ | exact Hlo]. apply on_grid_pow2. exact Hg.
  - apply round64_le_grid; [ | exact Hhi].
    apply (on_grid_coarser _ (-53)); [exact Hg | ].
    exists (2 ^ 53 - 1)%Z. reflexivity.
Qed.

(** For a frame rate up to [2 ^ 52] the binary64 alpha is 1 from frame
    [3 * FPS] on only, and 0 up to frame [FPS] only. *)
Lemma alpha_extremes (cfg : Config) (f : Z) :
  (0 < FPS cfg <= 2 ^ 52)%Z ->
  (binary64_alpha (text_fade cfg f) 1 <-> (3 * FPS cfg <= f)%Z) /\
  (binary64_alpha (text_fade cfg f) 0 <-> (f <= FPS cfg)%Z).
Proof.
  intros [Hpos Hmax].
  assert (E0 : round64 0 == 0) by (apply (round64_Z 0); reflexivity).
  assert (E1 : round64 1 == 1) by (apply (round64_Z 1); reflexivity).
  destruct (text_fade_ramp cfg f Hpos) as (al & y & Ht & _ & Hc).
  rewrite Ht. cbn [binary64_alpha].
  destruct Hc as [(Hf & Ea) | [(Hf & Ea) | (Hf & Ea)]].
  - rewrite (round64_comp _ _ Ea).
    split; split; intros H; try lia; try exact E0; try exact Hf.
    rewrite E0 in H. discriminate H.
  - assert (Hd : 0 < 2 * inject_Z (FPS cfg)).
    { change 0 with (2 * inject_Z 0). apply Qmult_lt_l; [reflexivity | ].
      rewrite <- Zlt_Qlt. exact Hpos. }
    assert (Hd53 : 2 * inject_Z (FPS cfg) <= inject_Z (2 ^ 53)).
    { change 2 with (inject_Z 2) at 1. rewrite <- inject_Z_mult, <- Zle_Qle. lia. }
    assert (Hn1 : 1 <= inject_Z f - inject_Z (FPS cfg)).
    { change 1 with (inject_Z 1). unfold Qminus.
      rewrite <- inject_Z_opp, <- inject_Z_plus, <- Zle_Qle. lia. }
    assert (Hn2 : inject_Z f - inject_Z (FPS cfg) <= 2 * inject_Z (FPS cfg) - 1).
    { change 1 with (inject_Z 1). change 2 with (inject_Z 2). unfold Qminus.
      rewrite <- inject_Z_mult, <- !inject_Z_opp, <- !inject_Z_plus, <- Zle_Qle. lia. }
    assert (Ep : pow2 (-53) * inject_Z (2 ^ 53) == 1) by reflexivity.
    pose proof (pow2_pos (-53)) as Hp.
    assert (Hal : pow2 (-53) <= al /\ al <= 1 - pow2 (-53)).
    { set (d := 2 * inject_Z (FPS cfg)) in *.
      set (n := inject_Z f - inject_Z (FPS cfg)) in *.
      set (P := inject_Z (2 ^ 53)) in *. set (u := pow2 (-53)) in *.
      clearbody d n P u. split.
      - apply Qnot_lt_le. intros Hlt.
        assert (H1 : al * d < u * d) by (apply Qmult_lt_compat_r; assumption).
        assert (H2 : u * d <= u * P) by (apply Qmult_le_l; assumption).
        lra.
      - apply Qnot_lt_le. intros Hlt.
        assert (H1 : (1 - u) * d < al * d) by (apply Qmult_lt_compat_r; assumption).
        assert (H2 : u * d <= u * P) by (apply Qmult_le_l; assumption).
        assert (E3 : (1 - u) * d == d - u * d) by ring. rewrite E3 in H1.
        lra. }
    destruct (round64_inside_unit al (proj1 Hal) (proj2 Hal)) as [Hr0 Hr1].
    split; split; intros H; try lia; exfalso; rewrite H in *; lra.
  - rewrite (round64_comp _ _ Ea).
    split; split; intros H; try lia; try exact E1; try exact Hf.
    rewrite E1 in H. discriminate H.
Qed.

(** X13.  With a positive frame rate up to [2 ^ 52] the text is fully
    opaque exactly from frame [3 * FPS] on and fully transparent
    exactly up to frame [FPS], also after the rounding of the quotient
    to binary64. *)
Theorem text_fully_visible_iff (cfg : Config) (f : Z) :
  (0 < FPS cfg <= 2 ^ 52)%Z ->
  (binary64_alpha (text_fade cfg f) 1 <-> (3 * FPS cfg <= f)%Z) /\
  (binary64_alpha (text_fade cfg f) 0 <-> (f <= FPS cfg)%Z).
Proof. exact (alpha_extremes cfg f). Qed.

Lemma text_fully_visible_iff_witness :
  (binary64_alpha (text_fade script_config 71) 1 <-> (3 * FPS script_config <= 71)%Z) /\
  (binary64_alpha (text_fade script_config 71) 0 <-> (71 <= FPS script_config)%Z).
Proof.
  apply (text_fully_visible_iff script_config 71). vm_compute.
  split; [reflexivity | discriminate].
Defined.

(** X14.  The frames of the animation are [0 .. TOTAL_FRAMES - 1] with
    [TOTAL_FRAMES = FPS * ANIM_DURATION]; for a frame rate up to
    [2 ^ 52] the text reaches full opacity in one of them exactly when
    the animation lasts more than three seconds. *)
Theorem message_fully_visible_in_time (cfg : Config) :
  (0 < FPS cfg <= 2 ^ 52)%Z ->
  TOTAL_FRAMES cfg = (FPS cfg * ANIM_DURATION cfg)%Z ->
  ((exists f : Z, (0 <= f < TOTAL_FRAMES cfg)%Z /\ binary64_alpha (text_fade cfg f) 1)
   <-> (3 < ANIM_DURATION cfg)%Z).
Proof.
  intros Hfps Htot. rewrite Htot. split.
  - intros (f & [Hf0 Hf1] & Ha).
    apply (alpha_extremes cfg f Hfps) in Ha. nia.
  - intros Hd. exists (3 * FPS cfg)%Z. split; [nia | ].
    apply (alpha_extremes cfg _ Hfps). lia.
Qed.

Lemma message_fully_visible_in_time_witness :
  (exists f : Z, (0 <= f < TOTAL_FRAMES script_config)%Z /\
                 binary64_alpha (text_fade script_config f) 1)
  <-> (3 < ANIM_DURATION script_config)%Z.
Proof.
  apply (message_fully_visible_in_time script_config).
  - vm_compute. split; [reflexivity | discriminate].
  - reflexivity.
Defined.

(* ================================================================== *)
(** ** When [update_frame] raises, and runs of frames *)

Lemma int_to_float_overflow (z : Z) :
  (binary64_limit <= Z.abs z)%Z -> int_to_float z = Raise OverflowError.
Proof.
  intros H. unfold int_to_float.
  destruct (Z.leb_spec binary64_limit (Z.abs z)); [reflexivity | lia].
Qed.

Lemma int_to_float_returns (z : Z) :
  (Z.abs z < binary64_limit)%Z -> int_to_float z = Ok (round64 (inject_Z z)).
Proof.
  intros H. unfold int_to_float.
  destruct (Z.leb_spec binary64_limit (Z.abs z)); [lia | reflexivity].
Qed.

(** The four ways lines 228-229 can end. *)
Lemma float_total_cases (cfg : Config) (f : Z) :
  (FPS cfg = 0%Z /\ float_total cfg f = Raise ZeroDivisionError) \/
  (FPS cfg <> 0%Z /\
   ((binary64_limit * Z.abs (FPS cfg) <= Z.abs f)%Z \/
    (binary64_limit <= Z.abs (start_seconds cfg))%Z) /\
   float_total cfg f = Raise OverflowError) \/
  (FPS cfg <> 0%Z /\
   (Z.abs f < binary64_limit * Z.abs (FPS cfg))%Z /\
   (Z.abs (start_seconds cfg) < binary64_limit)%Z /\
   ((inject_Z binary64_limit
       <= Qabs (round64 (inject_Z (start_seconds cfg))
                + round64 (inject_Z f / inject_Z (FPS cfg))) /\
     float_total cfg f = NonFinite) \/
    (Qabs (round64 (inject_Z (start_seconds cfg))
           + round64 (inject_Z f / inject_Z (FPS cfg))) < inject_Z binary64_limit /\
     exists total : Q, float_total cfg f = Ok total))).
Proof.
  unfold float_total, total_seconds_of.
  destruct (Z.eq_dec (FPS cfg) 0) as [E | N].
  - left. split; [exact E | ]. rewrite E. reflexivity.
  - right.
    destruct (Z_le_gt_dec (binary64_limit * Z.abs (FPS cfg)) (Z.abs f)) as [Hbig | Hf].
    + left. split; [exact N | split; [left; exact Hbig | ]].
      rewrite (true_divide_overflow _ _ N Hbig). reflexivity.
    + assert (Hf' : (Z.abs f < binary64_limit * Z.abs (FPS cfg))%Z) by lia.
      rewrite (true_divide_returns _ _ N Hf'). cbn [bind].
      destruct (Z_le_gt_dec binary64_limit (Z.abs (start_seconds cfg))) as [Hsbig | Hs].
      * left. split; [exact N | split; [right; exact Hsbig | ]].
        rewrite (int_to_float_overflow _ Hsbig). reflexivity.
      * assert (Hs' : (Z.abs (start_seconds cfg) < binary64_limit)%Z) by lia.
        right. split; [exact N | split; [exact Hf' | split; [exact Hs' | ]]].
        rewrite (int_to_float_returns _ Hs'). cbn [bind]. unfold float_add.
        destruct (Qle_bool (inject_Z binary64_limit)
                    (Qabs (round64 (inject_Z (start_seconds cfg))
                           + round64 (inject_Z f / inject_Z (FPS cfg))))) eqn:Eb.
        -- left. split; [apply Qle_bool_iff; exact Eb | reflexivity].
        -- right. split; [apply Qle_bool_false; exact Eb | eexists; reflexivity].
Qed.

Lemma update_frame_not_finite (cfg : Config) (f : Z) (a : Artists) :
  float_total cfg f = NonFinite -> update_frame cfg f a = NonFinite.
Proof. intros H. unfold update_frame, clock_time. rewrite H. reflexivity. Qed.

Lemma float_total_raises (cfg : Config) (f : Z) (a : Artists) (e : exn) :
  float_total cfg f = Raise e -> update_frame cfg f a = Raise e.
Proof. intros H. unfold update_frame, clock_time. rewrite H. reflexivity. Qed.

(** X15.  What [update_frame] raises: ZeroDivisionError exactly when
    the frame rate is zero, whatever the frame; OverflowError exactly
    when the frame rate is not zero and either [frame / FPS] or the
    start time is outside the range of binary64; and it returns artists
    exactly when neither happens and the sum of line 229 is finite.
    The fade step on its own raises only for frame rate zero at frame
    0, where both thresholds and the frame coincide. *)
Theorem update_frame_raises_exactly (cfg : Config) (f : Z) (a : Artists) :
  (update_frame cfg f a = Raise ZeroDivisionError <-> FPS cfg = 0%Z) /\
  (update_frame cfg f a = Raise OverflowError <->
   FPS cfg <> 0%Z /\
   ((binary64_limit * Z.abs (FPS cfg) <= Z.abs f)%Z \/
    (binary64_limit <= Z.abs (start_seconds cfg))%Z)) /\
  ((exists a' : Artists, update_frame cfg f a = Ok a') <->
   FPS cfg <> 0%Z /\
   (Z.abs f < binary64_limit * Z.abs (FPS cfg))%Z /\
   (Z.abs (start_seconds cfg) < binary64_limit)%Z /\
   Qabs (round64 (inject_Z (start_seconds cfg))
         + round64 (inject_Z f / inject_Z (FPS cfg))) < inject_Z binary64_limit) /\
  (text_fade cfg f = Raise ZeroDivisionError <-> FPS cfg = 0%Z /\ f = 0%Z).
Proof.
  assert (Hcases := float_total_cases cfg f).
  assert (Hok : forall total, float_total cfg f = Ok total ->
                              exists a', update_frame cfg f a = Ok a').
  { intros total Ht.
    destruct (update_frame_returns cfg f a _ (clock_time_of_total cfg f total Ht))
      as (ay & _ & Hu).
    eexists. exact Hu. }
  split; [ | split; [ | split]].
  - split; [ | apply update_frame_zero_fps].
    intros Hr.
    destruct Hcases as [(E & _) | [(N & _ & Ht) | (N & _ & _ & [(_ & Ht) | (_ & total & Ht)])]].
    + exact E.
    + rewrite (float_total_raises cfg f a _ Ht) in Hr. discriminate Hr.
    + rewrite (update_frame_not_finite cfg f a Ht) in Hr. discriminate Hr.
    + destruct (Hok total Ht) as [a' Hu]. rewrite Hu in Hr. discriminate Hr.
  - split.
    + intros Hr.
      destruct Hcases as [(E & Ht) | [(N & Hb & _) | (N & _ & _ & [(_ & Ht) | (_ & total & Ht)])]].
      * rewrite (float_total_raises cfg f a _ Ht) in Hr. discriminate Hr.
      * split; assumption.
      * rewrite (update_frame_not_finite cfg f a Ht) in Hr. discriminate Hr.
      * destruct (Hok total Ht) as [a' Hu]. rewrite Hu in Hr. discriminate Hr.
    + intros (N & Hb).
      destruct Hcases as [(E & _) | [(_ & _ & Ht) | (_ & Hf & Hs & _)]].
      * contradiction.
      * apply float_total_raises. exact Ht.
      * exfalso. destruct Hb; lia.
  - split.
    + intros [a' Hu].
      destruct Hcases as [(E & Ht) | [(N & _ & Ht) | (N & Hf & Hs & [(_ & Ht) | (Hfin & _)])]].
      * rewrite (float_total_raises cfg f a _ Ht) in Hu. discriminate Hu.
      * rewrite (float_total_raises cfg f a _ Ht) in Hu. discriminate Hu.
      * rewrite (update_frame_not_finite cfg f a Ht) in Hu. discriminate Hu.
      * repeat (split; [assumption | ]). exact Hfin.
    + intros (N & Hf & Hs & Hfin).
      destruct Hcases as [(E & _) | [(_ & Hb & _) | (_ & _ & _ & [(Hinf & _) | (_ & total & Ht)])]].
      * contradiction.
      * exfalso. destruct Hb; lia.
      * exfalso. exact (Qlt_not_le _ _ Hfin Hinf).
      * exact (Hok total Ht).
  - split.
    + intros Hr. destruct (Z.eq_dec (FPS cfg) 0) as [E | N].
      * split; [exact E | ].
        destruct (Z.lt_trichotomy f 0) as [Hlt | [Heq | Hgt]]; [ | exact Heq | ]; exfalso.
        -- rewrite text_fade_before in Hr by (unfold fade_start_frame; lia).
           discriminate Hr.
        -- rewrite text_fade_after in Hr
             by (unfold fade_start_frame, fade_end_frame; lia).
           discriminate Hr.
      * destruct (text_fade_total cfg f N) as [ay Hay]. rewrite Hay in Hr. discriminate Hr.
    + intros [E Ef]. subst f. unfold text_fade, fade_start_frame, fade_end_frame.
      rewrite E. reflexivity.
Qed.

(** X16.  A run of frames that are all inside the range of binary64
    leaves the artists as its last frame alone draws them, whatever
    frames came before it. *)
Theorem play_ends_on_last_frame (cfg : Config) (frames : list Z) (f : Z) (a : Artists) :
  FPS cfg <> 0%Z ->
  (Z.abs (start_seconds cfg) < 2 ^ 53)%Z ->
  Forall (fun g : Z => (Z.abs g < binary64_limit * Z.abs (FPS cfg))%Z) frames ->
  play cfg (frames ++ [f]) a = update_frame cfg f a.
Proof.
  intros Hfps Hs Hall. revert a. induction Hall as [ | g rest Hg _ IH]; intros a.
  - cbn [app play]. destruct (update_frame cfg f a); reflexivity.
  - cbn [app play].
    pose proof (float_total_returns cfg g Hfps Hg Hs) as Ht.
    destruct (update_frame_returns cfg g a _ (clock_time_of_total cfg g _ Ht))
      as (ay & _ & Hu).
    rewrite Hu. cbn [bind]. rewrite IH. reflexivity.
Qed.

Lemma play_ends_on_last_frame_witness :
  play script_config ([0; 1; 2] ++ [3])%Z created_artists
  = update_frame script_config 3 created_artists.
Proof.
  apply (play_ends_on_last_frame script_config [0; 1; 2]%Z 3 created_artists).
  - vm_compute. discriminate.
  - vm_compute. reflexivity.
  - repeat constructor.
Defined.

(** X21.  With a start time and an elapsed time below [2 ^ n] seconds
    in size ([0 <= n <= 53]) lines 228-229 return, and their total is
    within [2 ^ (n - 52)] seconds of [startSeconds + f / FPS] taken in
    real numbers. *)
Theorem total_within_rounding (cfg : Config) (f n : Z) :
  (0 <= n <= 53)%Z ->
  FPS cfg <> 0%Z ->
  (Z.abs (start_seconds cfg) < 2 ^ n)%Z ->
  (Z.abs f < 2 ^ n * Z.abs (FPS cfg))%Z ->
  exists total : Q,
    float_total cfg f = Ok total /\
    Qabs (total - spec_total cfg f) <= pow2 (n - 52).
Proof.
  intros Hn Hfps Hs Hf.
  destruct (float_total_close cfg f n Hn Hfps Hs Hf) as (total & Ht & Hlo & Hhi).
  exists total. split; [exact Ht | ].
  apply Qabs_Qle_condition. split; assumption.
Qed.

Lemma total_within_rounding_witness :
  exists total : Q,
    float_total script_config 719 = Ok total /\
    Qabs (total - spec_total script_config 719) <= pow2 (16 - 52).
Proof.
  apply (total_within_rounding script_config 719 16); vm_compute;
    repeat split; discriminate.
Defined.

(* ================================================================== *)
(** ** The numerals *)

Lemma numeral_step_keeps (cfg : Config) (P : Numeral -> Prop)
    (texts : list Numeral) (hl : Z * string) :
  Forall P texts ->
  (forall n : Numeral,
      In n (numeral_step cfg [] hl) -> P n) ->
  Forall P (numeral_step cfg texts hl).
Proof.
  intros Hold Hnew. destruct hl as [h label]. unfold numeral_step in *.
  destruct (String.eqb label "XII"); [exact Hold | ].
  destruct (String.eqb label "III");
    (apply Forall_app; split; [exact Hold | ]);
    (apply Forall_forall; intros n Hn; apply Hnew; exact Hn).
Qed.

Lemma draw_numerals_from (cfg : Config) (P : Numeral -> Prop)
    (pairs : list (Z * string)) (texts : list Numeral) :
  Forall P texts ->
  (forall hl n, In hl pairs -> In n (numeral_step cfg [] hl) -> P n) ->
  Forall P (fold_left (numeral_step cfg) pairs texts).
Proof.
  revert texts. induction pairs as [ | hl rest IH]; intros texts Hold Hnew.
  - exact Hold.
  - cbn [fold_left]. apply IH.
    + apply numeral_step_keeps; [exact Hold | ].
      intros n Hn. apply (Hnew hl n); [left; reflexivity | exact Hn].
    + intros hl' n Hin Hn. apply (Hnew hl' n); [right; exact Hin | exact Hn].
Qed.

Lemma combine_count_nth (ls : list string) (start i : nat) (l : string) :
  nth_error ls i = Some l ->
  nth_error (combine (map Z.of_nat (seq start (List.length ls))) ls) i
  = Some (Z.of_nat (start + i), l).
Proof.
  revert start i. induction ls as [ | x xs IH]; intros start i E.
  - destruct i; discriminate E.
  - destruct i as [ | i]; cbn in *.
    + injection E as E. subst. rewrite Nat.add_0_r. reflexivity.
    + rewrite (IH (S start) i E). do 3 f_equal. lia.
Qed.

Lemma enumerate_nth (labels : list string) (h : Z) (label : string) :
  In (h, label) (enumerate labels) ->
  (0 <= h < Z.of_nat (List.length labels))%Z /\
  nth_error labels (Z.to_nat h) = Some label.
Proof.
  unfold enumerate, range. intros Hin.
  apply In_nth_error in Hin. destruct Hin as [i Hi].
  assert (Hlen : (i < List.length labels)%nat).
  { assert (Hs : nth_error (combine (map Z.of_nat (seq 0 (List.length labels))) labels) i
                 <> None) by (rewrite Hi; discriminate).
    apply nth_error_Some in Hs.
    rewrite length_combine, length_map, length_seq, Nat.min_id in Hs. exact Hs. }
  destruct (nth_error labels i) as [l | ] eqn:El;
    [ | apply nth_error_None in El; lia].
  rewrite (combine_count_nth labels 0 i l El) in Hi.
  injection Hi as Eh El'. subst h label. cbn [Nat.add].
  rewrite Nat2Z.id. split; [lia | exact El].
Qed.

Lemma enumerate_labels (labels : list string) : map snd (enumerate labels) = labels.
Proof.
  unfold enumerate, range. generalize 0%nat as start.
  induction labels as [ | l rest IH]; intros start.
  - reflexivity.
  - cbn. f_equal. apply IH.
Qed.

Lemma numeral_texts_from (cfg : Config) (pairs : list (Z * string))
    (texts : list Numeral) :
  map numeral_text (fold_left (numeral_step cfg) pairs texts)
  = (map numeral_text texts
     ++ map (fun l => if String.eqb l "III" then "25"%string else l)
            (filter (fun l => negb (String.eqb l "XII")) (map snd pairs)))%list.
Proof.
  revert texts. induction pairs as [ | [h label] rest IH]; intros texts.
  - cbn. rewrite app_nil_r. reflexivity.
  - cbn [fold_left map snd filter]. rewrite IH. unfold numeral_step.
    destruct (String.eqb label "XII") eqn:E12; cbn [negb].
    + reflexivity.
    + destruct (String.eqb label "III") eqn:E3;
        rewrite map_app; cbn [map numeral_text]; rewrite E3, <- app_assoc; reflexivity.
Qed.

(** X17.  Whatever the list of labels, the numerals drawn are, in order,
    the labels other than "XII", with "III" shown as "25"; for the
    script's twelve labels these are eleven texts, and neither "XII" nor
    "III" is among them. *)
Theorem numerals_drawn (cfg : Config) (labels : list string) :
  map numeral_text (draw_numerals cfg labels)
  = map (fun l => if String.eqb l "III" then "25"%string else l)
        (filter (fun l => negb (String.eqb l "XII")) labels) /\
  map numeral_text (draw_numerals cfg roman_labels)
  = ["I"; "II"; "25"; "IIII"; "V"; "VI"; "VII"; "VIII"; "IX"; "X"; "XI"]%string /\
  Forall (fun n => numeral_text n <> "XII" /\ numeral_text n <> "III")%string
         (draw_numerals cfg labels).
Proof.
  assert (H : forall ls : list string,
             map numeral_text (draw_numerals cfg ls)
             = map (fun l => if String.eqb l "III" then "25"%string else l)
                   (filter (fun l => negb (String.eqb l "XII")) ls)).
  { intros ls. unfold draw_numerals.
    rewrite numeral_texts_from, enumerate_labels. reflexivity. }
  split; [apply H | split; [rewrite H; reflexivity | ]].
  unfold draw_numerals. apply draw_numerals_from; [constructor | ].
  intros [h label] n _ Hn. unfold numeral_step in Hn.
  destruct (String.eqb_spec label "XII") as [E12 | N12]; [destruct Hn | ].
  destruct (String.eqb_spec label "III") as [E3 | N3];
    cbn [app] in Hn; destruct Hn as [Hn | []]; subst n; cbn [numeral_text].
  - split; discriminate.
  - split; assumption.
Qed.

(** X18.  Every numeral is anchored on the ray of the hour index of its
    label's place in the list, at distance [R_DIAL - 0.15] from the
    centre; the replacement "25" is the boxed one in size 14, every
    other numeral is its label, unboxed, in size 18. *)
Theorem numerals_sit_on_hour_rays (cfg : Config) (labels : list string) :
  Forall
    (fun n =>
       exists (h : Z) (label : string),
         (0 <= h < Z.of_nat (List.length labels))%Z /\
         nth_error labels (Z.to_nat h) = Some label /\
         numeral_xy n
           = polar_to_cartesian (Q2R (R_DIAL cfg - (15 # 100))) (IZR (90 - h * 30)) (0, 0)%R /\
         dist2 (numeral_xy n) (0, 0)%R
           = (Q2R (R_DIAL cfg - (15 # 100)) * Q2R (R_DIAL cfg - (15 # 100)))%R /\
         ((label = "III" /\ numeral_text n = "25" /\
           numeral_boxed n = true /\ numeral_fontsize n = 14%Z) \/
          (label <> "XII" /\ label <> "III" /\ numeral_text n = label /\
           numeral_boxed n = false /\ numeral_fontsize n = 18%Z))%string)
    (draw_numerals cfg labels).
Proof.
  unfold draw_numerals. apply draw_numerals_from; [constructor | ].
  intros [h label] n Hin Hn.
  destruct (enumerate_nth labels h label Hin) as [Hh Hnth].
  exists h, label. split; [exact Hh | split; [exact Hnth | ]].
  unfold numeral_step in Hn.
  destruct (String.eqb_spec label "XII") as [E12 | N12]; [destruct Hn | ].
  destruct (String.eqb_spec label "III") as [E3 | N3];
    cbn [app] in Hn; destruct Hn as [Hn | []]; subst n;
    cbn [numeral_text numeral_xy numeral_boxed numeral_fontsize];
    (split; [reflexivity | split; [apply polar_dist2 | ]]).
  - left. repeat split. exact E3.
  - right. repeat split; assumption.
Qed.

(* ================================================================== *)
(** ** The logo *)

Lemma white_mask_true (p : Pixel) :
  white_mask p = true <-> (241 <= red p /\ 241 <= green p /\ 241 <= blue p)%Z.
Proof.
  unfold white_mask. rewrite !Bool.andb_true_iff, !Z.ltb_lt. lia.
Qed.

Lemma clear_white_fixed (p : Pixel) :
  clear_white p = p <-> (white_mask p = true -> opacity p = 0%Z).
Proof.
  unfold clear_white. destruct (white_mask p) eqn:E.
  - split.
    + intros Ep _. rewrite <- Ep. reflexivity.
    + intros H. destruct p as [r g b o]. cbn in *. rewrite (H eq_refl). reflexivity.
  - split; [intros _ H; discriminate H | reflexivity].
Qed.

Lemma clear_white_mask (p : Pixel) : white_mask (clear_white p) = white_mask p.
Proof. unfold clear_white. destruct (white_mask p) eqn:E; [ | exact E]. exact E. Qed.

Lemma clear_white_clears (p : Pixel) :
  white_mask (clear_white p) = true -> opacity (clear_white p) = 0%Z.
Proof.
  rewrite clear_white_mask. intros E. unfold clear_white. rewrite E. reflexivity.
Qed.

Lemma map_map_fixed {A : Type} (g : A -> A) (P : A -> Prop) :
  (forall x, g x = x <-> P x) ->
  forall data : list (list A), map (map g) data = data <-> Forall (Forall P) data.
Proof.
  intros Hg.
  assert (Row : forall row : list A, map g row = row <-> Forall P row).
  { induction row as [ | x xs IH]; cbn.
    - split; [constructor | reflexivity].
    - split.
      + intros E. injection E as Ex Exs. constructor; [apply Hg, Ex | apply IH, Exs].
      + intros H. inversion H as [ | ? ? Hx Hxs]; subst.
        f_equal; [apply Hg, Hx | apply IH, Hxs]. }
  induction data as [ | row rest IH]; cbn.
  - split; [constructor | reflexivity].
  - split.
    + intros E. injection E as Er Erest. constructor; [apply Row, Er | apply IH, Erest].
    + intros H. inversion H as [ | ? ? Hr Hrest]; subst.
      f_equal; [apply Row, Hr | apply IH, Hrest].
Qed.

(** X19.  Knocking out the white of the logo keeps the shape and every
    colour channel of the image, leaves no pixel that is white (all of
    red, green and blue above 240, so 241 at least) and still opaque,
    and changes nothing at all exactly when the image had no such pixel;
    in particular doing it twice is the same as doing it once. *)
Theorem knock_out_white_spec (data : list (list Pixel)) :
  map (map (fun p => (red p, green p, blue p))) (knock_out_white data)
  = map (map (fun p => (red p, green p, blue p))) data /\
  Forall (Forall (fun p =>
            (241 <= red p /\ 241 <= green p /\ 241 <= blue p)%Z -> opacity p = 0%Z))
         (knock_out_white data) /\
  (knock_out_white data = data <->
   Forall (Forall (fun p =>
             (241 <= red p /\ 241 <= green p /\ 241 <= blue p)%Z -> opacity p = 0%Z))
          data) /\
  knock_out_white (knock_out_white data) = knock_out_white data.
Proof.
  assert (Hfix : forall p : Pixel,
             clear_white p = p <->
             ((241 <= red p /\ 241 <= green p /\ 241 <= blue p)%Z -> opacity p = 0%Z)).
  { intros p. rewrite clear_white_fixed, white_mask_true. reflexivity. }
  assert (Hclean :
    Forall (Forall (fun p =>
              (241 <= red p /\ 241 <= green p /\ 241 <= blue p)%Z -> opacity p = 0%Z))
           (knock_out_white data)).
  { unfold knock_out_white. apply Forall_map, Forall_forall. intros row _.
    apply Forall_map, Forall_forall. intros p _ Hw.
    apply clear_white_clears, white_mask_true. exact Hw. }
  split; [ | split; [exact Hclean | split]].
  - unfold knock_out_white. rewrite map_map. apply map_ext. intros row.
    rewrite map_map. apply map_ext. intros p. unfold clear_white.
    destruct (white_mask p); reflexivity.
  - apply (map_map_fixed clear_white _ Hfix).
  - apply (map_map_fixed clear_white _ Hfix). exact Hclean.
Qed.

Lemma channel_in_unit (c : Z) : uint8 c -> 0 <= inject_Z c / 255 /\ inject_Z c / 255 <= 1.
Proof.
  intros [H0 H1]. change 255 with (inject_Z 255). apply ratio_in_unit; lia.
Qed.

(** X20.  For an image of [uint8] channels every value of [logo_arr]
    lies between 0 and 1, and [logo_arr] has the shape of the image. *)
Theorem logo_arr_in_unit (data : list (list Pixel)) :
  Forall (Forall pixel_ok) data ->
  map (@List.length _) (logo_arr data) = map (@List.length _) data /\
  Forall (Forall (fun q : Q * Q * Q * Q =>
            let '(r, g, b, o) := q in
            (0 <= r /\ r <= 1) /\ (0 <= g /\ g <= 1) /\
            (0 <= b /\ b <= 1) /\ (0 <= o /\ o <= 1)))
         (logo_arr data).
Proof.
  intros Hok. unfold logo_arr, knock_out_white. split.
  - rewrite !map_map. apply map_ext. intros row. rewrite !length_map. reflexivity.
  - rewrite map_map. apply Forall_map. eapply Forall_impl; [ | exact Hok].
    intros row Hrow. rewrite map_map. apply Forall_map.
    eapply Forall_impl; [ | exact Hrow].
    intros p (Hr & Hg & Hb & Ho). unfold normalise, clear_white.
    destruct (white_mask p); cbn [red green blue opacity];
      repeat split; try (apply channel_in_unit; assumption);
      apply channel_in_unit; unfold uint8; lia.
Qed.

Lemma logo_arr_in_unit_witness :
  map (@List.length _)
      (logo_arr [[ {| red := 255; green := 250; blue := 241; opacity := 255 |};
                   {| red := 240; green := 255; blue := 255; opacity := 200 |} ]])
  = map (@List.length _)
        [[ {| red := 255; green := 250; blue := 241; opacity := 255 |};
           {| red := 240; green := 255; blue := 255; opacity := 200 |} ]] /\
  Forall (Forall (fun q : Q * Q * Q * Q =>
            let '(r, g, b, o) := q in
            (0 <= r /\ r <= 1) /\ (0 <= g /\ g <= 1) /\
            (0 <= b /\ b <= 1) /\ (0 <= o /\ o <= 1)))
         (logo_arr [[ {| red := 255; green := 250; blue := 241; opacity := 255 |};
                      {| red := 240; green := 255; blue := 255; opacity := 200 |} ]]).
Proof.
  apply (logo_arr_in_unit
           [[ {| red := 255; green := 250; blue := 241; opacity := 255 |};
              {| red := 240; green := 255; blue := 255; opacity := 200 |} ]]).
  repeat constructor; cbn; lia.
Defined.
